(** * svg-to-excalidraw: the tree walker of [src/walker.ts]

    A shallow embedding of the traversal that turns a parsed SVG tree into a
    flat list of Excalidraw elements, and the properties of it that the
    specification states.

    The DOM tree is a rose tree of element and text nodes; the browser's
    [TreeWalker] is a zipper over that tree, with [nextNode] and
    [nextSibling] following the traversal algorithms of the DOM standard for
    a filter that only ever accepts or rejects.  The collaborators that live
    in other modules of the repository ([./attributes], [./transform],
    [./utils], [./elements/...], [gl-matrix], [points-on-path]) are the
    methods of the class [Externals]: the walker is verified for every
    implementation of them. *)

From Stdlib Require Import String Ascii List ZArith Lia Bool.
From stdpp Require Import base tactics option list.
Import ListNotations.
Open Scope string_scope.
Open Scope list_scope.
Set Warnings "-register-all".

(** ** The DOM fragment the walker reads *)

(** An element's attributes, in document order ([Element.attributes]). *)
Definition Attrs := list (string * string).

Record Element := mkElement {
  tagName : string;
  attributes : Attrs
}.

Inductive Node :=
| ElementNode (el : Element) (childNodes : list Node)
| TextNode (data : string).

Definition children (n : Node) : list Node :=
  match n with
  | ElementNode _ cs => cs
  | TextNode _ => []
  end.

(** [Node.nodeName]: the qualified name of an element, ["#text"] for text. *)
Definition nodeName (n : Node) : string :=
  match n with
  | ElementNode el _ => tagName el
  | TextNode _ => "#text"
  end.

(** The element a handler reads through [tw.currentNode as Element]; a text
    node has no tag and no attributes. *)
Definition asElement (n : Node) : Element :=
  match n with
  | ElementNode el _ => el
  | TextNode _ => mkElement "#text" []
  end.

(** [Node.textContent]. *)
Fixpoint textContent (n : Node) : string :=
  match n with
  | TextNode s => s
  | ElementNode _ cs =>
      (fix go (l : list Node) : string :=
         match l with
         | [] => ""
         | c :: r => String.append (textContent c) (go r)
         end) cs
  end.

Fixpoint getAttr (name : string) (l : Attrs) : option string :=
  match l with
  | [] => None
  | (k, v) :: r => if String.eqb k name then Some v else getAttr name r
  end.

Fixpoint setAttr (name value : string) (l : Attrs) : Attrs :=
  match l with
  | [] => [(name, value)]
  | (k, v) :: r =>
      if String.eqb k name then (k, value) :: r
      else (k, v) :: setAttr name value r
  end.

(** [el.getAttribute(name)]: [None] stands for [null]. *)
Definition getAttribute (el : Element) (name : string) : option string :=
  getAttr name (attributes el).

(** [el.hasAttribute(name)]. *)
Definition hasAttribute (el : Element) (name : string) : bool :=
  match getAttribute el name with
  | Some _ => true
  | None => false
  end.

(** [el.setAttribute(name, value)]: the value of an attribute that is
    already there is replaced in place, a new attribute goes last. *)
Definition setAttribute (el : Element) (name value : string) : Element :=
  mkElement (tagName el) (setAttr name value (attributes el)).

(** [Array.prototype.includes] on an array of strings. *)
Definition includes (l : list string) (s : string) : bool :=
  existsb (String.eqb s) l.

(** JavaScript's [a || b] on a string that may be [null]: the empty string
    is falsy as well. *)
Definition orElse (a : option string) (b : option string) : option string :=
  match a with
  | Some "" => b
  | Some s => Some s
  | None => b
  end.

(** ** Merging a [use] element into its template *)

Definition skippedUseAttrs : list string := ["id"].

Definition allwaysPassedUseAttrs : list string :=
  ["x"; "y"; "width"; "height"; "href"; "xlink:href"].

(** One step of the [reduce] in [getDefElWithCorrectAttrs]; [attr] is the
    pair [(attr.name, attr.value)]. *)
Definition useAttrStep (defEl useEl : Element) (el : Element)
    (attr : string * string) : Element :=
  if includes skippedUseAttrs (snd attr) then el
  else if negb (hasAttribute defEl (fst attr))
          || includes allwaysPassedUseAttrs (fst attr)
  then setAttribute el (fst attr)
         (match getAttribute useEl (fst attr) with
          | Some "" | None => ""
          | Some v => v
          end)
  else el.

(** [defEl.cloneNode()] is a shallow copy: the tag and the attributes, no
    children.  The record [Element] is exactly that. *)
Definition getDefElWithCorrectAttrs (defEl useEl : Element) : Element :=
  fold_left (useAttrStep defEl useEl) (attributes useEl) defEl.

(** What the merge leaves under a name, for a [use] element whose
    attributes have distinct names (as every DOM element's have): the value
    of the [use] element when that value is not ["id"] and the template has
    no such attribute or the name is one of x, y, width, height, href,
    xlink:href; the template's own otherwise. *)
Definition mergedValue (defEl useEl : Element) (name : string)
    : option string :=
  match getAttribute useEl name with
  | Some v =>
      if includes skippedUseAttrs v then getAttribute defEl name
      else if negb (hasAttribute defEl name)
              || includes allwaysPassedUseAttrs name
      then Some v
      else getAttribute defEl name
  | None => getAttribute defEl name
  end.

(** ** The tree walker *)

Definition SUPPORTED_TAGS : list string :=
  ["svg"; "path"; "g"; "text"; "use"; "circle"; "ellipse"; "rect";
   "polyline"; "polygon"].

(** [nodeValidator]: [true] is [FILTER_ACCEPT], [false] is [FILTER_REJECT].
    A text node has no [tagName], and [includes(undefined)] is false. *)
Definition nodeValidator (node : Node) : bool :=
  match node with
  | ElementNode el _ => includes SUPPORTED_TAGS (tagName el)
  | TextNode _ => false
  end.

(** A [TreeWalker] is its current node and, for every ancestor up to the
    walker's root, that ancestor with the siblings that follow the path
    taken through it.  The walker is at its root when there is no such
    frame. *)
Record Frame := mkFrame {
  parent : Node;
  following : list Node
}.

Record TreeWalker := mkTreeWalker {
  currentNode : Node;
  ancestors : list Frame
}.

Definition createTreeWalker (dom : Node) : TreeWalker :=
  mkTreeWalker dom [].

(** The first node of a run of siblings that the filter accepts, with the
    siblings after it.  A rejected node is passed over with its subtree. *)
Fixpoint firstAccepted (l : list Node) : option (Node * list Node) :=
  match l with
  | [] => None
  | n :: r => if nodeValidator n then Some (n, r) else firstAccepted r
  end.

(** The second half of [TreeWalker.nextNode()]: the next accepted node among
    the following siblings of the current level, else of the level above,
    and so on up to the root. *)
Fixpoint nextFollowing (anc : list Frame) : option TreeWalker :=
  match anc with
  | [] => None
  | f :: up =>
      match firstAccepted (following f) with
      | Some (n, r) => Some (mkTreeWalker n (mkFrame (parent f) r :: up))
      | None => nextFollowing up
      end
  end.

(** [tw.nextNode()]: [None] is [null], and then the walker has not moved.
    The first child is tried first; as the filter never answers
    [FILTER_SKIP], a rejected first child sends the search to its
    siblings. *)
Definition nextNode (tw : TreeWalker) : option TreeWalker :=
  match children (currentNode tw) with
  | [] => nextFollowing (ancestors tw)
  | cs => nextFollowing (mkFrame (currentNode tw) cs :: ancestors tw)
  end.

(** [tw.nextSibling()]: the next accepted sibling; when there is none the
    search goes on among the siblings of the parent only if the parent is
    neither the root nor an accepted node. *)
Fixpoint traverseSiblings (anc : list Frame) : option TreeWalker :=
  match anc with
  | [] => None
  | f :: up =>
      match firstAccepted (following f) with
      | Some (n, r) => Some (mkTreeWalker n (mkFrame (parent f) r :: up))
      | None =>
          match up with
          | [] => None
          | _ => if nodeValidator (parent f) then None
                 else traverseSiblings up
          end
      end
  end.

Definition nextSibling (tw : TreeWalker) : option TreeWalker :=
  traverseSiblings (ancestors tw).

(** ** What a walker has before it *)

(** The nodes below [n] that the walker can reach, in document order: the
    accepted children, each followed by what is reachable below it.  Nothing
    below a rejected node is. *)
Fixpoint visible (n : Node) : list Node :=
  match n with
  | TextNode _ => []
  | ElementNode _ cs =>
      (fix go (l : list Node) : list Node :=
         match l with
         | [] => []
         | c :: r => (if nodeValidator c then c :: visible c else []) ++ go r
         end) cs
  end.

(** The same for a run of siblings. *)
Definition visibleList (l : list Node) : list Node :=
  flat_map (fun c => if nodeValidator c then c :: visible c else []) l.

(** What is reachable in the siblings that follow the path to the current
    node, innermost level first. *)
Definition upFrames (anc : list Frame) : list Node :=
  flat_map (fun f => visibleList (following f)) anc.

(** The nodes in document order after the current one, as far as the root
    of the walker and the filter let it go. *)
Definition upcoming (t : TreeWalker) : list Node :=
  visible (currentNode t) ++ upFrames (ancestors t).

Definition remaining (t : TreeWalker) : nat := length (upcoming t).


(** ** Trees that differ by rejected nodes *)






(** The outcome of a computation that may [throw]. *)
Inductive Result (A : Type) :=
| Ok (a : A)
| Raise (msg : string).
Arguments Ok {A} a.
Arguments Raise {A} msg.

(** ** Excalidraw elements *)

Section Model.

(** JavaScript numbers.  The walker only moves them around, adds and
    subtracts them; they stay abstract. *)
Context {num : Type}.

Definition Point : Type := num * num.

(** The fields of [ExcalidrawElementBase] and of its variants that the
    walker writes.  The schema has more (seed, roughness, opacity, line
    height, font family, the element's own id, ...): they are constants of
    the default constructors or literals that nothing below reads. *)
Record ExElement := mkExElement {
  type : string;
  x : num;
  y : num;
  width : num;
  height : num;
  strokeColor : string;
  backgroundColor : string;
  fillStyle : string;
  strokeWidth : num;
  strokeSharpness : string;
  groupIds : list nat;
  points : list Point;
  text : string;
  originalText : string;
  fontSize : num
}.

(** [Partial<ExcalidrawElementBase>]: a field is there or not. *)
Record Partial := mkPartial {
  p_x : option (num);
  p_y : option (num);
  p_width : option (num);
  p_height : option (num);
  p_strokeColor : option (string);
  p_backgroundColor : option (string);
  p_fillStyle : option (string);
  p_strokeWidth : option (num);
  p_strokeSharpness : option (string);
  p_groupIds : option (list nat)
}.

Definition emptyPartial : Partial :=
  mkPartial None None None None None None None None None None.

(** [{...a, ...b}] on two partial field maps: a field of [b] wins. *)
Definition mergePartial (a b : Partial) : Partial :=
  {|
     p_x := match p_x b with Some v => Some v | None => p_x a end;
     p_y := match p_y b with Some v => Some v | None => p_y a end;
     p_width := match p_width b with Some v => Some v | None => p_width a end;
     p_height := match p_height b with Some v => Some v | None => p_height a end;
     p_strokeColor := match p_strokeColor b with Some v => Some v | None => p_strokeColor a end;
     p_backgroundColor := match p_backgroundColor b with Some v => Some v | None => p_backgroundColor a end;
     p_fillStyle := match p_fillStyle b with Some v => Some v | None => p_fillStyle a end;
     p_strokeWidth := match p_strokeWidth b with Some v => Some v | None => p_strokeWidth a end;
     p_strokeSharpness := match p_strokeSharpness b with Some v => Some v | None => p_strokeSharpness a end;
     p_groupIds := match p_groupIds b with Some v => Some v | None => p_groupIds a end
  |}.

(** [{...e, ...p}]: the fields of [p] that are there replace those of [e]. *)
Definition spread (p : Partial) (e : ExElement) : ExElement :=
  {|
     type := type e;
     x := match p_x p with Some v => v | None => x e end;
     y := match p_y p with Some v => v | None => y e end;
     width := match p_width p with Some v => v | None => width e end;
     height := match p_height p with Some v => v | None => height e end;
     strokeColor := match p_strokeColor p with Some v => v | None => strokeColor e end;
     backgroundColor := match p_backgroundColor p with Some v => v | None => backgroundColor e end;
     fillStyle := match p_fillStyle p with Some v => v | None => fillStyle e end;
     strokeWidth := match p_strokeWidth p with Some v => v | None => strokeWidth e end;
     strokeSharpness := match p_strokeSharpness p with Some v => v | None => strokeSharpness e end;
     groupIds := match p_groupIds p with Some v => v | None => groupIds e end;
     points := points e;
     text := text e;
     originalText := originalText e;
     fontSize := fontSize e
  |}.

(** A property written after the spreads of an object literal. *)
Definition set_type (v : string) (e : ExElement) : ExElement :=
  {| type := v; x := x e; y := y e; width := width e; height := height e; strokeColor := strokeColor e; backgroundColor := backgroundColor e; fillStyle := fillStyle e; strokeWidth := strokeWidth e; strokeSharpness := strokeSharpness e; groupIds := groupIds e; points := points e; text := text e; originalText := originalText e; fontSize := fontSize e |}.
Definition set_x (v : num) (e : ExElement) : ExElement :=
  {| type := type e; x := v; y := y e; width := width e; height := height e; strokeColor := strokeColor e; backgroundColor := backgroundColor e; fillStyle := fillStyle e; strokeWidth := strokeWidth e; strokeSharpness := strokeSharpness e; groupIds := groupIds e; points := points e; text := text e; originalText := originalText e; fontSize := fontSize e |}.
Definition set_y (v : num) (e : ExElement) : ExElement :=
  {| type := type e; x := x e; y := v; width := width e; height := height e; strokeColor := strokeColor e; backgroundColor := backgroundColor e; fillStyle := fillStyle e; strokeWidth := strokeWidth e; strokeSharpness := strokeSharpness e; groupIds := groupIds e; points := points e; text := text e; originalText := originalText e; fontSize := fontSize e |}.
Definition set_width (v : num) (e : ExElement) : ExElement :=
  {| type := type e; x := x e; y := y e; width := v; height := height e; strokeColor := strokeColor e; backgroundColor := backgroundColor e; fillStyle := fillStyle e; strokeWidth := strokeWidth e; strokeSharpness := strokeSharpness e; groupIds := groupIds e; points := points e; text := text e; originalText := originalText e; fontSize := fontSize e |}.
Definition set_height (v : num) (e : ExElement) : ExElement :=
  {| type := type e; x := x e; y := y e; width := width e; height := v; strokeColor := strokeColor e; backgroundColor := backgroundColor e; fillStyle := fillStyle e; strokeWidth := strokeWidth e; strokeSharpness := strokeSharpness e; groupIds := groupIds e; points := points e; text := text e; originalText := originalText e; fontSize := fontSize e |}.
Definition set_strokeColor (v : string) (e : ExElement) : ExElement :=
  {| type := type e; x := x e; y := y e; width := width e; height := height e; strokeColor := v; backgroundColor := backgroundColor e; fillStyle := fillStyle e; strokeWidth := strokeWidth e; strokeSharpness := strokeSharpness e; groupIds := groupIds e; points := points e; text := text e; originalText := originalText e; fontSize := fontSize e |}.
Definition set_backgroundColor (v : string) (e : ExElement) : ExElement :=
  {| type := type e; x := x e; y := y e; width := width e; height := height e; strokeColor := strokeColor e; backgroundColor := v; fillStyle := fillStyle e; strokeWidth := strokeWidth e; strokeSharpness := strokeSharpness e; groupIds := groupIds e; points := points e; text := text e; originalText := originalText e; fontSize := fontSize e |}.
Definition set_fillStyle (v : string) (e : ExElement) : ExElement :=
  {| type := type e; x := x e; y := y e; width := width e; height := height e; strokeColor := strokeColor e; backgroundColor := backgroundColor e; fillStyle := v; strokeWidth := strokeWidth e; strokeSharpness := strokeSharpness e; groupIds := groupIds e; points := points e; text := text e; originalText := originalText e; fontSize := fontSize e |}.
Definition set_strokeWidth (v : num) (e : ExElement) : ExElement :=
  {| type := type e; x := x e; y := y e; width := width e; height := height e; strokeColor := strokeColor e; backgroundColor := backgroundColor e; fillStyle := fillStyle e; strokeWidth := v; strokeSharpness := strokeSharpness e; groupIds := groupIds e; points := points e; text := text e; originalText := originalText e; fontSize := fontSize e |}.
Definition set_strokeSharpness (v : string) (e : ExElement) : ExElement :=
  {| type := type e; x := x e; y := y e; width := width e; height := height e; strokeColor := strokeColor e; backgroundColor := backgroundColor e; fillStyle := fillStyle e; strokeWidth := strokeWidth e; strokeSharpness := v; groupIds := groupIds e; points := points e; text := text e; originalText := originalText e; fontSize := fontSize e |}.
Definition set_groupIds (v : list nat) (e : ExElement) : ExElement :=
  {| type := type e; x := x e; y := y e; width := width e; height := height e; strokeColor := strokeColor e; backgroundColor := backgroundColor e; fillStyle := fillStyle e; strokeWidth := strokeWidth e; strokeSharpness := strokeSharpness e; groupIds := v; points := points e; text := text e; originalText := originalText e; fontSize := fontSize e |}.
Definition set_points (v : list Point) (e : ExElement) : ExElement :=
  {| type := type e; x := x e; y := y e; width := width e; height := height e; strokeColor := strokeColor e; backgroundColor := backgroundColor e; fillStyle := fillStyle e; strokeWidth := strokeWidth e; strokeSharpness := strokeSharpness e; groupIds := groupIds e; points := v; text := text e; originalText := originalText e; fontSize := fontSize e |}.
Definition set_text (v : string) (e : ExElement) : ExElement :=
  {| type := type e; x := x e; y := y e; width := width e; height := height e; strokeColor := strokeColor e; backgroundColor := backgroundColor e; fillStyle := fillStyle e; strokeWidth := strokeWidth e; strokeSharpness := strokeSharpness e; groupIds := groupIds e; points := points e; text := v; originalText := originalText e; fontSize := fontSize e |}.
Definition set_originalText (v : string) (e : ExElement) : ExElement :=
  {| type := type e; x := x e; y := y e; width := width e; height := height e; strokeColor := strokeColor e; backgroundColor := backgroundColor e; fillStyle := fillStyle e; strokeWidth := strokeWidth e; strokeSharpness := strokeSharpness e; groupIds := groupIds e; points := points e; text := text e; originalText := v; fontSize := fontSize e |}.
Definition set_fontSize (v : num) (e : ExElement) : ExElement :=
  {| type := type e; x := x e; y := y e; width := width e; height := height e; strokeColor := strokeColor e; backgroundColor := backgroundColor e; fillStyle := fillStyle e; strokeWidth := strokeWidth e; strokeSharpness := strokeSharpness e; groupIds := groupIds e; points := points e; text := text e; originalText := originalText e; fontSize := v |}.

(** An object literal is read left to right: [e |> f |> g] applies [f],
    then [g], so a later property wins over an earlier one. *)
Notation "e |> f" := (f e) (at level 45, left associativity, only parsing).

(** Modelled from the spec: [./elements/Group] is not part of the sources.
    A group record holds "a stable identifier and any style attributes
    declared on that group element"; the identifier is drawn from
    [randomId] when the record is built. *)
Record Group := mkGroup {
  id : nat;
  element : Element
}.

(** ** The collaborators outside [walker.ts]

    [document] is the parsed document with its selector lookup, its
    serialisation and its style sheet; [mat4] is gl-matrix's matrix. *)
Class Externals := {
  mat4 : Type;
  document : Type;
  (* numbers *)
  nlit : Z -> num;
  nadd : num -> num -> num;
  nsub : num -> num -> num;
  nmul : num -> num -> num;
  truthy : num -> bool;
  (* gl-matrix *)
  mat4_fromValues : list num -> mat4;
  mat4_multiply : mat4 -> mat4 -> mat4;
  mat4_get : mat4 -> nat -> num;
  (* ./attributes *)
  getNum : Element -> string -> num -> num;
  pointsAttrToPoints : Element -> list Point;
  presAttrsToElementValues : Element -> Partial;
  filterAttrsToElementValues : Element -> Partial;
  (* ./elements/Group *)
  getGroupAttrs : list Group -> Partial;
  (* ./transform *)
  getTransformMatrix : Element -> list Group -> mat4;
  transformPoints : list Point -> mat4 -> list Point;
  (* ./utils and points-on-path *)
  dimensionsFromPoints : list Point -> num * num;
  getWindingOrder : list Point -> string;
  pointsOnPath : string -> list (list Point);
  (* ./elements/ExcalidrawElement *)
  createExRect : ExElement;
  createExEllipse : ExElement;
  createExLine : ExElement;
  createExDraw : ExElement;
  createExText : ExElement;
  (* the document *)
  querySelector : document -> string -> option Element;
  innerHTMLIncludes : document -> string -> bool;
  styleRuleFontSize : document -> string -> option num
}.

Context `{Ext : Externals}.

(** Modelled from the spec: [has] and [get] of [./attributes] are not part
    of the sources.  "[hasAttribute(element, name) -> bool],
    [attribute(element, name, default) -> string]": the attribute's value
    when it is there, the default otherwise (the empty string when no default
    is given). *)
Definition has (el : Element) (attr : string) : bool := hasAttribute el attr.

Definition get (el : Element) (attr : string) (backup : option string)
    : string :=
  match getAttribute el attr with
  | Some v => v
  | None => match backup with Some b => b | None => "" end
  end.

(** [randomId()] draws from a supply of identifiers: the state is the number
    of identifiers drawn so far, and the n-th draw is [n]. *)
Definition randomId (ids : nat) : nat * nat := (ids, S ids).

Definition presAttrs (el : Element) (groups : list Group) : Partial :=
  mergePartial
    (mergePartial (getGroupAttrs groups) (presAttrsToElementValues el))
    (filterAttrsToElementValues el).

(** ** The walk *)

Definition Scene := list ExElement.

Record WalkerArgs := mkArgs {
  root : document;
  tw : TreeWalker;
  scene : Scene;
  groups : list Group
}.

Definition with_tw (t : TreeWalker) (args : WalkerArgs) : WalkerArgs :=
  mkArgs (root args) t (scene args) (groups args).

Definition with_scene (s : Scene) (args : WalkerArgs) : WalkerArgs :=
  mkArgs (root args) (tw args) s (groups args).

Definition with_groups (g : list Group) (args : WalkerArgs) : WalkerArgs :=
  mkArgs (root args) (tw args) (scene args) g.

(** [scene.elements.push(e)] *)
Definition push (e : ExElement) (args : WalkerArgs) : WalkerArgs :=
  with_scene (scene args ++ [e]) args.

(** What a call of [walk] leaves behind: the elements of the scene it was
    given and the identifiers drawn, or the error thrown with the scene as
    it was then. *)
Inductive Outcome :=
| Done (s : Scene) (ids : nat)
| Throw (msg : string) (s : Scene)
| OutOfFuel.

Definition Walk : Type := WalkerArgs -> nat -> option Node -> Outcome.

(** [walk(args, tw.nextNode())] and [walk(args, tw.nextSibling())]: the
    walker moves when there is a next node, and [walk] gets that node. *)
Definition advance (walk : Walk) (args : WalkerArgs) (ids : nat)
    (next : option TreeWalker) : Outcome :=
  match next with
  | Some t => walk (with_tw t args) ids (Some (currentNode t))
  | None => walk args ids None
  end.

Definition n0 : num := nlit 0.
Definition n1 : num := nlit 1.

(** The matrix [fromValues(w, 0, 0, 0, 0, h, 0, 0, 0, 0, 1, 0, x, y, 0, 1)]. *)
Definition scaleTranslate (w h x y : num) : mat4 :=
  mat4_fromValues [w; n0; n0; n0; n0; h; n0; n0; n0; n0; n1; n0; x; y; n0; n1].

Definition walkers_svg (walk : Walk) (args : WalkerArgs) (ids : nat)
    : Outcome :=
  advance walk args ids (nextNode (tw args)).

Definition walkers_g (walk : Walk) (args : WalkerArgs) (ids : nat)
    : Outcome :=
  let (gid, ids1) := randomId ids in
  let nextArgs :=
    args |> with_tw (createTreeWalker (currentNode (tw args)))
         |> with_groups
              (groups args ++ [mkGroup gid (asElement (currentNode (tw args)))])
  in
  match advance walk nextArgs ids1 (nextNode (tw nextArgs)) with
  | Done s ids2 =>
      advance walk (with_scene s args) ids2 (nextSibling (tw args))
  | Throw msg s => Throw msg s
  | OutOfFuel => OutOfFuel
  end.

(** The part of [walkers.use] before [scene.elements.push(exEl)]: the
    element to push and the identifiers drawn, or the error thrown. *)
Inductive UseResult :=
| UseOk (exEl : ExElement) (ids : nat)
| UseThrow (msg : string)
| UseOutOfFuel.

(** [useEl.getAttribute("href") || useEl.getAttribute("xlink:href")], with
    [None] when the result is falsy ([null] or the empty string). *)
Definition useId (useEl : Element) : option string :=
  match orElse (getAttribute useEl "href") (getAttribute useEl "xlink:href")
  with
  | None | Some "" => None
  | Some id => Some id
  end.

(** The arguments of the walk of the merged element: a fresh scene and a
    walker rooted at the merged element. *)
Definition tempArgs (args : WalkerArgs) (finalEl : Node) : WalkerArgs :=
  args |> with_scene [] |> with_tw (createTreeWalker finalEl).

Definition resolveUse (walk : Walk) (args : WalkerArgs) (ids : nat)
    : UseResult :=
  let useEl := asElement (currentNode (tw args)) in
  match useId useEl with
  | None => UseThrow "unable to get id of use element"
  | Some id =>
      match querySelector (root args) id with
      | None =>
          UseThrow (String.append "unable to find def element with id: " id)
      | Some defEl =>
          let finalEl := ElementNode (getDefElWithCorrectAttrs defEl useEl) [] in
          match walk (tempArgs args finalEl) ids (Some finalEl) with
          | Done tempScene ids1 =>
              (* tempScene.elements.pop() *)
              match last tempScene with
              | None => UseThrow "Unable to create ex element"
              | Some exEl => UseOk exEl ids1
              end
          | Throw msg _ => UseThrow msg
          | OutOfFuel => UseOutOfFuel
          end
      end
  end.

Definition walkers_use (walk : Walk) (args : WalkerArgs) (ids : nat)
    : Outcome :=
  match resolveUse walk args ids with
  | UseThrow msg => Throw msg (scene args)
  | UseOutOfFuel => OutOfFuel
  | UseOk exEl ids1 =>
      advance walk (push exEl args) ids1 (nextNode (tw args))
  end.

(** The object literal [circle] of [walkers.circle]. *)
Definition circle_element (el : Element) (grps : list Group) : ExElement :=
  let r := getNum el "r" n0 in
  let d := nmul r (nlit 2) in
  let x := nsub (nadd (getNum el "x" n0) (getNum el "cx" n0)) r in
  let y := nsub (nadd (getNum el "y" n0) (getNum el "cy" n0)) r in
  let mat := getTransformMatrix el grps in
  let m := scaleTranslate d d x y in
  let result := mat4_multiply mat m in
  createExEllipse
  |> spread (presAttrs el grps)
  |> set_x (mat4_get result 12)
  |> set_y (mat4_get result 13)
  |> set_width (mat4_get result 0)
  |> set_height (mat4_get result 5)
  |> set_groupIds (map id grps).

Definition walkers_circle (walk : Walk) (args : WalkerArgs) (ids : nat)
    : Outcome :=
  let el := asElement (currentNode (tw args)) in
  let circle := circle_element el (groups args) in
  advance walk (push circle args) ids (nextNode (tw args)).

(** The object literal [ellipse] of [walkers.ellipse]. *)
Definition ellipse_element (el : Element) (grps : list Group) : ExElement :=
  let rx := getNum el "rx" n0 in
  let ry := getNum el "ry" n0 in
  let cx := getNum el "cx" n0 in
  let cy := getNum el "cy" n0 in
  let x := nsub (nadd (getNum el "x" n0) cx) rx in
  let y := nsub (nadd (getNum el "y" n0) cy) ry in
  let w := nmul rx (nlit 2) in
  let h := nmul ry (nlit 2) in
  let mat := getTransformMatrix el grps in
  let m := scaleTranslate w h x y in
  let result := mat4_multiply mat m in
  createExEllipse
  |> spread (presAttrs el grps)
  |> set_x (mat4_get result 12)
  |> set_y (mat4_get result 13)
  |> set_width (mat4_get result 0)
  |> set_height (mat4_get result 5)
  |> set_groupIds (map id grps).

Definition walkers_ellipse (walk : Walk) (args : WalkerArgs) (ids : nat)
    : Outcome :=
  let el := asElement (currentNode (tw args)) in
  let ellipse := ellipse_element el (groups args) in
  advance walk (push ellipse args) ids (nextNode (tw args)).

Definition walkers_line (walk : Walk) (args : WalkerArgs) (ids : nat)
    : Outcome :=
  (* unimplemented *)
  advance walk args ids (nextNode (tw args)).

(** [transformedPoints.map(([_x, _y]) => [_x - x, _y - y])] *)
Definition relativeTo (x y : num) (pts : list Point) : list Point :=
  map (fun p => (nsub (fst p) x, nsub (snd p) y)) pts.

(** Reading [transformedPoints[0][0]] of an empty array throws. *)
Definition typeError : string :=
  "TypeError: Cannot read properties of undefined".

(** The points of a [polygon] or [polyline] after the matrix of the element
    and its groups. *)
Definition transformedPointsOf (el : Element) (grps : list Group)
    : list Point :=
  transformPoints (pointsAttrToPoints el) (getTransformMatrix el grps).

(** The object literal [line] of [walkers.polygon]. *)
Definition polygon_line (el : Element) (grps : list Group)
    : Result ExElement :=
  let transformedPoints := transformedPointsOf el grps in
  match transformedPoints with
  | [] => Raise typeError
  | (x, y) :: _ =>
      let relativePoints := relativeTo x y transformedPoints in
      let (width, height) := dimensionsFromPoints relativePoints in
      Ok (createExLine
          |> spread (getGroupAttrs grps)
          |> spread (presAttrsToElementValues el)
          |> set_points (relativePoints ++ [(n0, n0)])
          |> set_x x
          |> set_y y
          |> set_width width
          |> set_height height)
  end.

Definition walkers_polygon (walk : Walk) (args : WalkerArgs) (ids : nat)
    : Outcome :=
  let el := asElement (currentNode (tw args)) in
  match polygon_line el (groups args) with
  | Raise msg => Throw msg (scene args)
  | Ok line => advance walk (push line args) ids (nextNode (tw args))
  end.

(** [shouldFill] of [walkers.polyline]. *)
Definition shouldFill (el : Element) : bool :=
  let hasFill := has el "fill" in
  let fill := get el "fill" None in
  negb hasFill || (hasFill && negb (String.eqb fill "none")).

(** The object literal [line] of [walkers.polyline]. *)
Definition polyline_line (el : Element) (grps : list Group)
    : Result ExElement :=
  let transformedPoints := transformedPointsOf el grps in
  match transformedPoints with
  | [] => Raise typeError
  | (x, y) :: _ =>
      let relativePoints := relativeTo x y transformedPoints in
      let (width, height) := dimensionsFromPoints relativePoints in
      Ok (createExLine
          |> spread (getGroupAttrs grps)
          |> spread (presAttrsToElementValues el)
          |> set_points
               (relativePoints ++ (if shouldFill el then [(n0, n0)] else []))
          |> set_x x
          |> set_y y
          |> set_width width
          |> set_height height)
  end.

Definition walkers_polyline (walk : Walk) (args : WalkerArgs) (ids : nat)
    : Outcome :=
  let el := asElement (currentNode (tw args)) in
  match polyline_line el (groups args) with
  | Raise msg => Throw msg (scene args)
  | Ok line => advance walk (push line args) ids (nextNode (tw args))
  end.

(** [v || 10] on a number. *)
Definition orTen (v : num) : num := if truthy v then v else nlit 10.

Definition strlen (s : string) : num := nlit (Z.of_nat (String.length s)).

(** The element made for one child of a [text] element: one for a text
    node, one for a [tspan], none for anything else. *)
Definition textChild (el : Element) (grps : list Group) (adjustHeight : bool)
    (fontSize x y : num) (hasFill : bool) (fill : string) (mat result : mat4)
    (child : Node) : list ExElement :=
  match child with
  | TextNode data =>
      let textContent := data in
      [ createExText
        |> spread (presAttrs el grps)
        |> set_x (mat4_get result 12)
        |> set_y (if adjustHeight
                  then nsub (mat4_get result 13) (orTen fontSize)
                  else mat4_get result 13)
        |> set_originalText textContent
        |> set_fillStyle "hachure"
        |> set_text textContent
        |> set_strokeColor (if hasFill then fill else "#1E1E1E")
        |> set_backgroundColor "transparent"
        |> set_width (nmul (nlit 8) (strlen textContent))
        |> set_height (nlit 15)
        |> set_fontSize (orTen fontSize) ]
  | ElementNode childEl _ =>
      if String.eqb (tagName childEl) "tspan" then
        let textContent := textContent child in
        let childFontSize :=
          if has childEl "font-size"
          then getNum childEl "font-size" (nlit 10) else fontSize in
        let hasChildFill := has childEl "fill" in
        let childFill :=
          if has childEl "fill" then get childEl "fill" None else fill in
        let childX := if has childEl "x" then getNum childEl "x" n0 else x in
        let childY := if has childEl "y" then getNum childEl "y" n0 else y in
        let updatedM := scaleTranslate n1 n1 childX childY in
        let updatedResult := mat4_multiply mat updatedM in
        [ createExText
          |> spread (presAttrs el grps)
          |> set_x (mat4_get updatedResult 12)
          |> set_y (if adjustHeight
                    then nsub (mat4_get updatedResult 13) (orTen fontSize)
                    else mat4_get updatedResult 13)
          |> set_originalText textContent
          |> set_fillStyle "hachure"
          |> set_text textContent
          |> set_strokeColor
               (if hasFill || hasChildFill then childFill else "#1E1E1E")
          |> set_backgroundColor "transparent"
          |> set_width (nmul (nlit 8) (strlen textContent))
          |> set_height (nlit 15)
          |> set_fontSize (orTen childFontSize) ]
      else []
  end.

(** The elements [walkers.text] pushes, one child after the other. *)
Definition text_elements (doc : document) (node : Node) (grps : list Group)
    : list ExElement :=
  let el := asElement node in
  let adjustHeight := negb (innerHTMLIncludes doc "excalidraw") in
  let fontSize := nlit 10 in
  let fontSize :=
    match getAttribute el "class" with
    | None | Some "" => fontSize
    | Some className =>
        match styleRuleFontSize doc className with
        | Some v => v
        | None => fontSize
        end
    end in
  let fontSize := getNum el "font-size" fontSize in
  let x := getNum el "x" n0 in
  let y := getNum el "y" n0 in
  let hasFill := has el "fill" in
  let fill := get el "fill" None in
  let mat := getTransformMatrix el grps in
  let m := scaleTranslate n1 n1 x y in
  let result := mat4_multiply mat m in
  flat_map
    (textChild el grps adjustHeight fontSize x y hasFill fill mat result)
    (children node).

Definition walkers_text (walk : Walk) (args : WalkerArgs) (ids : nat)
    : Outcome :=
  let texts :=
    text_elements (root args) (currentNode (tw args)) (groups args) in
  advance walk (with_scene (scene args ++ texts) args) ids
    (nextNode (tw args)).

(** The object literal [rect] of [walkers.rect]. *)
Definition rect_element (el : Element) (grps : list Group) : ExElement :=
  let x := getNum el "x" n0 in
  let y := getNum el "y" n0 in
  let w := getNum el "width" n0 in
  let h := getNum el "height" n0 in
  let mat := getTransformMatrix el grps in
  let m := scaleTranslate w h x y in
  let result := mat4_multiply mat m in
  let isRound := hasAttribute el "rx" || hasAttribute el "ry" in
  createExRect
  |> spread (presAttrs el grps)
  |> set_x (mat4_get result 12)
  |> set_y (mat4_get result 13)
  |> set_width (mat4_get result 0)
  |> set_height (mat4_get result 5)
  |> set_strokeSharpness (if isRound then "round" else "sharp").

Definition walkers_rect (walk : Walk) (args : WalkerArgs) (ids : nat)
    : Outcome :=
  let el := asElement (currentNode (tw args)) in
  let rect := rect_element el (groups args) in
  advance walk (push rect args) ids (nextNode (tw args)).

(** The variables that the callbacks of [points.map] in [walkers.path]
    assign to, and the identifier supply. *)
Record PathState := mkPathState {
  initialWindingOrder : string;
  localGroup : nat;
  supply : nat
}.

(** [points.map((pointArr, idx) => ...)] with a callback that assigns to
    outer variables and may throw. *)
Fixpoint mapWithState {A B St : Type} (f : St -> nat -> A -> Result (B * St))
    (st : St) (idx : nat) (l : list A) : Result (list B * St) :=
  match l with
  | [] => Ok ([], st)
  | a :: r =>
      match f st idx a with
      | Raise msg => Raise msg
      | Ok (b, st1) =>
          match mapWithState f st1 (S idx) r with
          | Raise msg => Raise msg
          | Ok (bs, st2) => Ok (b :: bs, st2)
          end
      end
  end.

(** The callback of the ["nonzero"] case. *)
Definition nonzeroElement (el : Element) (grps : list Group) (mat : mat4)
    (fillColor : string) (st : PathState) (idx : nat) (pointArr : list Point)
    : Result (ExElement * PathState) :=
  let tPoints := transformPoints pointArr mat in
  match tPoints with
  | [] => Raise typeError
  | (x, y) :: _ =>
      let (width, height) := dimensionsFromPoints tPoints in
      let relativePoints := relativeTo x y tPoints in
      let windingOrder := getWindingOrder relativePoints in
      let st :=
        if Nat.eqb idx 0
        then let (fresh, ids1) := randomId (supply st) in
             mkPathState windingOrder fresh ids1
        else st in
      let backgroundColor := fillColor in
      let backgroundColor :=
        if String.eqb backgroundColor "none" then "transparent"
        else backgroundColor in
      let backgroundColor :=
        if negb (String.eqb (initialWindingOrder st) windingOrder)
        then "#FFFFFF" else backgroundColor in
      Ok (createExDraw
          |> set_strokeWidth n0
          |> set_strokeColor "#00000000"
          |> spread (presAttrs el grps)
          |> set_points relativePoints
          |> set_backgroundColor backgroundColor
          |> set_width width
          |> set_height height
          |> set_x (nadd x (getNum el "x" n0))
          |> set_y (nadd y (getNum el "y" n0))
          |> set_groupIds [localGroup st],
          st)
  end.

(** The callback of the ["evenodd"] case. *)
Definition evenoddElement (el : Element) (grps : list Group) (mat : mat4)
    (st : PathState) (idx : nat) (pointArr : list Point)
    : Result (ExElement * PathState) :=
  let tPoints := transformPoints pointArr mat in
  match tPoints with
  | [] => Raise typeError
  | (x, y) :: _ =>
      let (width, height) := dimensionsFromPoints tPoints in
      let relativePoints := relativeTo x y tPoints in
      let st :=
        if Nat.eqb idx 0
        then let (fresh, ids1) := randomId (supply st) in
             mkPathState (initialWindingOrder st) fresh ids1
        else st in
      Ok (createExDraw
          |> spread (presAttrs el grps)
          |> set_points relativePoints
          |> set_width width
          |> set_height height
          |> set_x (nadd x (getNum el "x" n0))
          |> set_y (nadd y (getNum el "y" n0)),
          st)
  end.

(** The body of [walkers.path] up to the assignment to [scene.elements]:
    the elements made for the path and the state the callbacks leave. *)
Definition pathElements (el : Element) (grps : list Group) (ids : nat)
    : Result (list ExElement * PathState) :=
  let mat := getTransformMatrix el grps in
  let points := pointsOnPath (get el "d" None) in
  let fillColor := get el "fill" (Some "transparent") in
  let fillRule := get el "fill-rule" (Some "nonzero") in
  let (localGroup, ids1) := randomId ids in
  let st := mkPathState "clockwise" localGroup ids1 in
  if String.eqb fillRule "nonzero" then
    mapWithState (nonzeroElement el grps mat fillColor) st 0 points
  else if String.eqb fillRule "evenodd" then
    mapWithState (evenoddElement el grps mat) st 0 points
  else Ok ([], st).

Definition walkers_path (walk : Walk) (args : WalkerArgs) (ids : nat)
    : Outcome :=
  let el := asElement (currentNode (tw args)) in
  match pathElements el (groups args) ids with
  | Raise msg => Throw msg (scene args)
  | Ok (elements, st) =>
      advance walk (with_scene (scene args ++ elements) args) (supply st)
        (nextNode (tw args))
  end.

(** The object [walkers]: a handler for each of its keys. *)
Definition walkers (walk : Walk)
    : list (string * (WalkerArgs -> nat -> Outcome)) :=
  [ ("svg", walkers_svg walk);
    ("g", walkers_g walk);
    ("use", walkers_use walk);
    ("circle", walkers_circle walk);
    ("ellipse", walkers_ellipse walk);
    ("line", walkers_line walk);
    ("polygon", walkers_polygon walk);
    ("polyline", walkers_polyline walk);
    ("text", walkers_text walk);
    ("rect", walkers_rect walk);
    ("path", walkers_path walk) ].

(** [walkers[nodeName]] *)
Fixpoint lookupWalker {H : Type} (name : string) (l : list (string * H))
    : option H :=
  match l with
  | [] => None
  | (k, h) :: r => if String.eqb k name then Some h else lookupWalker name r
  end.

(** [walk]: every call, also the one that returns at once on [null], uses
    one unit of [fuel], the depth of the JavaScript call stack. *)
Fixpoint walk (fuel : nat) (args : WalkerArgs) (ids : nat)
    (nextNode : option Node) {struct fuel} : Outcome :=
  match fuel with
  | O => OutOfFuel
  | S fuel' =>
      match nextNode with
      | None => Done (scene args) ids
      | Some node =>
          match lookupWalker (nodeName node) (walkers (walk fuel')) with
          | Some walker => walker args ids
          | None => Done (scene args) ids
          end
      end
  end.

(** ** Vocabulary of the properties *)





(** The keys of [walkers]. *)
Inductive Handler :=
| Hsvg | Hg | Huse | Hcircle | Hellipse | Hline | Hpolygon | Hpolyline
| Htext | Hrect | Hpath.

Definition handlerOf (name : string) : option Handler :=
  lookupWalker name
    [ ("svg", Hsvg); ("g", Hg); ("use", Huse); ("circle", Hcircle);
      ("ellipse", Hellipse); ("line", Hline); ("polygon", Hpolygon);
      ("polyline", Hpolyline); ("text", Htext); ("rect", Hrect);
      ("path", Hpath) ].

Definition runHandler (h : Handler) (walk : Walk)
    : WalkerArgs -> nat -> Outcome :=
  match h with
  | Hsvg => walkers_svg walk
  | Hg => walkers_g walk
  | Huse => walkers_use walk
  | Hcircle => walkers_circle walk
  | Hellipse => walkers_ellipse walk
  | Hline => walkers_line walk
  | Hpolygon => walkers_polygon walk
  | Hpolyline => walkers_polyline walk
  | Htext => walkers_text walk
  | Hrect => walkers_rect walk
  | Hpath => walkers_path walk
  end.

(** The merged element that [walkers.use] walks, as a node without
    children. *)
Definition finalElOf (args : WalkerArgs) (defEl : Element) : Node :=
  ElementNode
    (getDefElWithCorrectAttrs defEl (asElement (currentNode (tw args)))) [].

(** The walk of the merged element in its temporary scene. *)
Definition innerWalk (walk : Walk) (args : WalkerArgs) (ids : nat)
    (defEl : Element) : Outcome :=
  walk (tempArgs args (finalElOf args defEl)) ids
    (Some (finalElOf args defEl)).





(** An outcome with the elements [pre] put before its scene. *)
Definition prepend (pre : Scene) (o : Outcome) : Outcome :=
  match o with
  | Done s ids => Done (pre ++ s) ids
  | Throw msg s => Throw msg (pre ++ s)
  | OutOfFuel => OutOfFuel
  end.

(** A [walk] that neither reads nor touches the elements already in the
    scene. *)
Definition framesScene (walk : Walk) : Prop :=
  forall (pre : Scene) (args : WalkerArgs) (ids : nat) (next : option Node),
    walk (with_scene (pre ++ scene args) args) ids next
    = prepend pre (walk args ids next).



(** What the handler of a node adds to the scene on its own, for the
    handlers that make elements from the node alone and then move on; [g]
    and [use] are not among them. *)
Definition ownElements (doc : document) (grps : list Group) (node : Node)
    (ids : nat) : Result (list ExElement * nat) :=
  let el := asElement node in
  match handlerOf (nodeName node) with
  | Some Hcircle => Ok ([circle_element el grps], ids)
  | Some Hellipse => Ok ([ellipse_element el grps], ids)
  | Some Hrect => Ok ([rect_element el grps], ids)
  | Some Hpolygon =>
      match polygon_line el grps with
      | Ok line => Ok ([line], ids)
      | Raise msg => Raise msg
      end
  | Some Hpolyline =>
      match polyline_line el grps with
      | Ok line => Ok ([line], ids)
      | Raise msg => Raise msg
      end
  | Some Htext => Ok (text_elements doc node grps, ids)
  | Some Hpath =>
      match pathElements el grps ids with
      | Ok (els, st) => Ok (els, supply st)
      | Raise msg => Raise msg
      end
  | _ => Ok ([], ids)
  end.

(** The nodes of a list handled one after the other, each adding its
    elements to the scene, up to the first that throws. *)
Fixpoint handleInOrder (doc : document) (grps : list Group)
    (nodes : list Node) (s : Scene) (ids : nat) : Outcome :=
  match nodes with
  | [] => Done s ids
  | node :: rest =>
      match ownElements doc grps node ids with
      | Raise msg => Throw msg s
      | Ok (els, ids1) => handleInOrder doc grps rest (s ++ els) ids1
      end
  end.


(** The value of a style field: that of the first of the field maps [from]
    in which the field is set, the default where none sets it. *)
Fixpoint firstSet {A : Type} (field : Partial -> option A)
    (from : list Partial) (dflt : A) : A :=
  match from with
  | [] => dflt
  | p :: rest =>
      match field p with
      | Some v => v
      | None => firstSet field rest dflt
      end
  end.

End Model.

(** ** A runnable implementation of the collaborators

    Integer coordinates, gl-matrix's column-major 4x4 matrices as lists, a
    document that is its root node.  It follows the interfaces of the
    specification closely enough to run the walker on concrete documents;
    the theorems below hold for every implementation. *)
Module Sample.

Open Scope Z_scope.

Fixpoint digits (s : string) (acc : Z) : option Z :=
  match s with
  | EmptyString => Some acc
  | String c r =>
      let n := Z.of_nat (nat_of_ascii c) in
      if (48 <=? n) && (n <=? 57) then digits r (10 * acc + (n - 48))
      else None
  end.

Definition parseZ (s : string) : option Z :=
  match s with
  | EmptyString => None
  | String "-" r =>
      match r with
      | EmptyString => None
      | _ => option_map Z.opp (digits r 0)
      end
  | _ => digits s 0
  end.

(** [s.split(sep)] *)
Fixpoint split (sep : ascii) (s : string) (cur : string) : list string :=
  match s with
  | EmptyString => [cur]
  | String c r =>
      if Ascii.eqb c sep then cur :: split sep r EmptyString
      else split sep r (String.append cur (String c EmptyString))
  end.

Definition parsePoint (s : string) : option (Z * Z) :=
  match split "," s EmptyString with
  | [a; b] =>
      match parseZ a, parseZ b with
      | Some u, Some v => Some (u, v)
      | _, _ => None
      end
  | _ => None
  end.

(** Modelled from the spec: "[numericAttribute(element, name, default) ->
    number]: attribute read with numeric coercion and fallback". *)
Definition getNumZ (el : Element) (attr : string) (backup : Z) : Z :=
  match getAttribute el attr with
  | Some v => match parseZ v with Some n => n | None => backup end
  | None => backup
  end.

(** Modelled from the spec: "[pointListFromAttribute(element) -> ordered
    list of 2D points]", for a [points] attribute of the form
    [x,y x,y ...]. *)
Definition pointsAttr (el : Element) : list (Z * Z) :=
  match getAttribute el "points" with
  | Some v => omap parsePoint (split " " v EmptyString)
  | None => []
  end.

(** Modelled from the spec: "[decomposePathIntoSubpolygons(dCommandString)
    -> ordered list of point-list]", for absolute move-to and line-to
    commands written [M x,y L x,y ... Z]: every [M] opens a sub-polygon. *)
Fixpoint subpolygons (tokens : list string) (cur : list (Z * Z))
    (started : bool) : list (list (Z * Z)) :=
  match tokens with
  | [] => if started then [cur] else []
  | t :: r =>
      if String.eqb t "M" then
        (if started then [cur] else []) ++ subpolygons r [] true
      else
        match parsePoint t with
        | Some p => subpolygons r (cur ++ [p]) started
        | None => subpolygons r cur started
        end
  end.

Definition pathPoints (d : string) : list (list (Z * Z)) :=
  subpolygons (split " " d EmptyString) [] false.

(** Modelled from the spec: "[presentationAttributesToFields(element) ->
    partial field map]: maps recognized presentation attributes (stroke,
    fill, stroke-width, ...) to target-schema field values". *)
Definition presFields (el : Element) : @Partial Z :=
  {| p_x := None; p_y := None; p_width := None; p_height := None;
     p_strokeColor := getAttribute el "stroke";
     p_backgroundColor := getAttribute el "fill";
     p_fillStyle := None;
     p_strokeWidth :=
       match getAttribute el "stroke-width" with
       | Some v => parseZ v
       | None => None
       end;
     p_strokeSharpness := None;
     p_groupIds := None |}.

(** Modelled from the spec: the group context exposes "group-derived style
    defaults": the presentation attributes of the enclosing groups, the
    innermost last. *)
Definition groupFields (grps : list (Group)) : @Partial Z :=
  fold_left (fun acc g => mergePartial acc (presFields (element g)))
    grps emptyPartial.

Definition identity : list Z := [1;0;0;0; 0;1;0;0; 0;0;1;0; 0;0;0;1].

Definition entry (m : list Z) (i : nat) : Z := nth i m 0.

(** gl-matrix's [mat4.multiply(out, a, b)], column-major. *)
Definition multiply (a b : list Z) : list Z :=
  flat_map
    (fun col =>
       map (fun row =>
              entry a row * entry b (4 * col)
              + entry a (4 + row) * entry b (4 * col + 1)
              + entry a (8 + row) * entry b (4 * col + 2)
              + entry a (12 + row) * entry b (4 * col + 3))
           [0; 1; 2; 3]%nat)
    [0; 1; 2; 3]%nat.

Definition applyMatrix (pts : list (Z * Z)) (m : list Z) : list (Z * Z) :=
  map (fun p =>
         (entry m 0 * fst p + entry m 4 * snd p + entry m 12,
          entry m 1 * fst p + entry m 5 * snd p + entry m 13))
      pts.

Definition span (l : list Z) : Z :=
  match l with
  | [] => 0
  | a :: r => fold_left Z.max r a - fold_left Z.min r a
  end.

Definition dimensions (pts : list (Z * Z)) : Z * Z :=
  (span (map fst pts), span (map snd pts)).

(** Twice the signed area of the polygon, by the shoelace formula. *)
Fixpoint shoelace (first : Z * Z) (pts : list (Z * Z)) : Z :=
  match pts with
  | [] => 0
  | [p] => fst p * snd first - fst first * snd p
  | p :: ((q :: _) as r) => fst p * snd q - fst q * snd p + shoelace first r
  end.

Definition windingOrder (pts : list (Z * Z)) : string :=
  match pts with
  | [] => "clockwise"
  | p :: _ => if shoelace p pts <? 0 then "counterclockwise" else "clockwise"
  end.

Definition defaults (type : string) : @ExElement Z :=
  {| type := type; x := 0; y := 0; width := 0; height := 0;
     strokeColor := "#000000"; backgroundColor := "transparent";
     fillStyle := "solid"; strokeWidth := 1; strokeSharpness := "sharp";
     groupIds := []; points := []; text := ""; originalText := "";
     fontSize := 20 |}.

Fixpoint elementsOf (n : Node) : list Element :=
  match n with
  | TextNode _ => []
  | ElementNode el cs =>
      el :: (fix go (l : list Node) : list Element :=
               match l with
               | [] => []
               | c :: r => elementsOf c ++ go r
               end) cs
  end.

(** [querySelector] for the selectors [#name]: the first element in
    document order whose [id] attribute is [name]. *)
Definition selectById (doc : Node) (selector : string) : option Element :=
  match selector with
  | String "#" name =>
      find (fun el =>
              match getAttribute el "id" with
              | Some v => String.eqb v name
              | None => false
              end)
        (elementsOf doc)
  | _ => None
  end.

#[export] Instance ext : @Externals Z :=
  {| mat4 := list Z;
     document := Node;
     nlit := fun z => z;
     nadd := Z.add;
     nsub := Z.sub;
     nmul := Z.mul;
     truthy := fun z => negb (z =? 0);
     mat4_fromValues := fun l => l;
     mat4_multiply := multiply;
     mat4_get := entry;
     getNum := getNumZ;
     pointsAttrToPoints := pointsAttr;
     presAttrsToElementValues := presFields;
     filterAttrsToElementValues := fun _ => emptyPartial;
     getGroupAttrs := groupFields;
     getTransformMatrix := fun _ _ => identity;
     transformPoints := applyMatrix;
     dimensionsFromPoints := dimensions;
     getWindingOrder := windingOrder;
     pointsOnPath := pathPoints;
     createExRect := defaults "rectangle";
     createExEllipse := defaults "ellipse";
     createExLine := defaults "line";
     createExDraw := defaults "draw";
     createExText := defaults "text";
     querySelector := selectById;
     innerHTMLIncludes := fun _ _ => false;
     styleRuleFontSize := fun _ _ => None |}.

(** [walk] started on the document element, as [createTreeWalker(dom)]
    followed by [walk(args, tw.nextNode())] would on a document. *)
Definition run (fuel : nat) (doc : Node) : Outcome :=
  walk fuel (mkArgs doc (createTreeWalker doc) [] []) 0%nat (Some doc).

Definition el (tag : string) (attrs : Attrs) (cs : list Node) : Node :=
  ElementNode (mkElement tag attrs) cs.

(** *** Documents to run the walker on *)

Definition square : string := "M 0,0 L 10,0 L 10,10 L 0,10 Z".
Definition hole : string := "M 2,2 L 2,8 L 8,8 L 8,2 Z".
Definition squareWithHole : string :=
  String.append square (String.append " " hole).

(** The arguments of a handler called on [node], a child of the root [doc]
    followed by the siblings [after]. *)
Definition argsAt (doc node : Node) (after : list Node) : WalkerArgs :=
  mkArgs doc (mkTreeWalker node [mkFrame doc after]) [] [].


Definition evenoddPath : Element :=
  mkElement "path"
    [("d", squareWithHole); ("fill", "green"); ("fill-rule", "evenodd")].

Definition holedPath : Element :=
  mkElement "path" [("id", "p"); ("d", squareWithHole); ("fill", "green")].




Definition useOfPathDoc : Node :=
  el "svg" []
    [ el "defs" [] [ElementNode holedPath []];
      el "use" [("href", "#p")] [] ].

Definition useNode : Node := el "use" [("href", "#p")] [].

Definition squarePiece : @ExElement Z :=
  Eval cbv in
    match pathElements holedPath [] 0%nat with
    | Ok ([a; _], _) => a
    | _ => defaults ""
    end.

Definition holePiece : @ExElement Z :=
  Eval cbv in
    match pathElements holedPath [] 0%nat with
    | Ok ([_; b], _) => b
    | _ => defaults ""
    end.


Definition circle1 : Node := el "circle" [("r", "1")] [].
Definition circle2 : Node := el "circle" [("r", "2")] [].
Definition circle3 : Node := el "circle" [("r", "3")] [].
Definition group1 : Node := el "g" [] [circle1; circle2].
Definition group2 : Node := el "g" [] [circle3].
Definition twoGroupsDoc : Node := el "svg" [] [group1; group2].

Definition clutteredDoc : Node :=
  el "svg" []
    [ el "title" [] [TextNode "drawing"];
      el "line" [("x1", "0")] [];
      circle1;
      el "a" [] [circle2];
      TextNode " ";
      circle3 ].

Definition cleanDoc : Node := el "svg" [] [circle1; circle3].


Definition useOfUseDoc : Node :=
  el "svg" []
    [ el "defs" []
        [ el "use" [("id", "a"); ("href", "#b")] [];
          el "circle" [("id", "b"); ("r", "1")] [] ];
      el "use" [("href", "#a")] [] ].


Definition refCircle : Element := mkElement "circle" [("id", "c"); ("r", "2")].

Definition useOfCircle : Node := el "use" [("href", "#c"); ("x", "5")] [].

Definition useOfCircleDoc : Node :=
  el "svg" [] [el "defs" [] [ElementNode refCircle []]; useOfCircle].




Definition pointlessPolygon : Node := el "polygon" [("id", "p")] [].


Definition styledPolygon : Element :=
  mkElement "polygon" [("points", "0,0 4,0 4,3"); ("stroke", "red")].

Definition styledGroup : Group :=
  mkGroup 0 (mkElement "g" [("stroke", "blue"); ("fill", "green")]).

(** A text with a stroke, no fill and a font size of zero. *)
Definition strokedText : Node :=
  el "text" [("stroke", "red"); ("font-size", "0")]
    [TextNode "ab"; el "tspan" [] [TextNode "cde"]].

(** A group that ends a nested [svg] element, and a rectangle after it. *)
Definition innerGroup : Node := el "g" [] [circle1].
Definition innerSvg : Node := el "svg" [] [innerGroup].
Definition lastRect : Node := el "rect" [("width", "4"); ("height", "3")] [].
Definition nestedSvgDoc : Node := el "svg" [] [innerSvg; lastRect].

Definition argsAtInnerGroup : WalkerArgs :=
  mkArgs nestedSvgDoc
    (mkTreeWalker innerGroup
       [mkFrame innerSvg []; mkFrame nestedSvgDoc [lastRect]])
    [] [].

End Sample.


(** * Properties *)

(** ** Attributes *)

Lemma getAttr_setAttr_eq (name value : string) (l : Attrs) :
  getAttr name (setAttr name value l) = Some value.
Proof.
  induction l as [|[k v] r IH]; simpl.
  - now rewrite String.eqb_refl.
  - destruct (String.eqb k name) eqn:E; simpl; rewrite E; auto.
Qed.

Lemma getAttr_setAttr_ne (name other value : string) (l : Attrs) :
  name <> other ->
  getAttr other (setAttr name value l) = getAttr other l.
Proof.
  intros Hne. induction l as [|[k v] r IH]; simpl.
  - destruct (String.eqb name other) eqn:E; auto.
    apply String.eqb_eq in E. contradiction.
  - destruct (String.eqb k name) eqn:E; simpl.
    + apply String.eqb_eq in E. subst k.
      destruct (String.eqb name other) eqn:E'; auto.
      apply String.eqb_eq in E'. contradiction.
    + destruct (String.eqb k other); auto.
Qed.

Lemma getAttr_None_notin (name : string) (l : Attrs) :
  name ∉ map fst l -> getAttr name l = None.
Proof.
  induction l as [|[k v] r IH]; simpl; auto.
  intros Hn. apply not_elem_of_cons in Hn as [Hne Hn].
  destruct (String.eqb k name) eqn:E.
  - apply String.eqb_eq in E. congruence.
  - auto.
Qed.

Lemma getAttr_elem_of (name value : string) (l : Attrs) :
  NoDup (map fst l) -> (name, value) ∈ l -> getAttr name l = Some value.
Proof.
  induction l as [|[k v] r IH]; simpl; intros Hnd Hin.
  - now apply elem_of_nil in Hin.
  - apply NoDup_cons in Hnd as [Hk Hr].
    apply elem_of_cons in Hin as [Heq|Hin].
    + inversion Heq; subst. now rewrite String.eqb_refl.
    + destruct (String.eqb k name) eqn:E; auto.
      apply String.eqb_eq in E. subst k.
      exfalso. apply Hk. apply list_elem_of_fmap. now exists (name, value).
Qed.

Lemma useAttrStep_other (defEl useEl el : Element) (k v name : string) :
  k <> name ->
  getAttribute (useAttrStep defEl useEl el (k, v)) name
  = getAttribute el name.
Proof.
  intros Hne. unfold useAttrStep; cbn [fst snd].
  destruct (includes skippedUseAttrs v); auto.
  destruct (negb (hasAttribute defEl k) || includes allwaysPassedUseAttrs k);
    auto.
  unfold getAttribute, setAttribute; simpl.
  now apply getAttr_setAttr_ne.
Qed.

Lemma fold_useAttrStep (defEl useEl : Element) (name : string) :
  forall (l : Attrs) (el : Element),
    NoDup (map fst l) ->
    (forall k v, (k, v) ∈ l -> getAttribute useEl k = Some v) ->
    getAttribute (fold_left (useAttrStep defEl useEl) l el) name
    = match getAttr name l with
      | Some v =>
          if includes skippedUseAttrs v then getAttribute el name
          else if negb (hasAttribute defEl name)
                  || includes allwaysPassedUseAttrs name
          then Some v
          else getAttribute el name
      | None => getAttribute el name
      end.
Proof.
  induction l as [|[k v] r IH]; intros el Hnd Huse;
    cbn [fold_left getAttr map fst]; auto.
  cbn [map fst] in Hnd. apply NoDup_cons in Hnd as [Hk Hr].
  rewrite IH; auto; [|intros; apply Huse; now apply elem_of_cons; right].
  destruct (String.eqb k name) eqn:E.
  - apply String.eqb_eq in E. subst k.
    rewrite (getAttr_None_notin name r Hk).
    unfold useAttrStep; cbn [fst snd].
    destruct (includes skippedUseAttrs v); auto.
    destruct (negb (hasAttribute defEl name)
              || includes allwaysPassedUseAttrs name); auto.
    rewrite (Huse name v (list_elem_of_here _ _)).
    unfold getAttribute, setAttribute; simpl.
    rewrite getAttr_setAttr_eq. now destruct v.
  - apply String.eqb_neq in E.
    rewrite (useAttrStep_other defEl useEl el k v name E).
    reflexivity.
Qed.

Lemma merged_attribute (defEl useEl : Element) (name : string) :
  NoDup (map fst (attributes useEl)) ->
  getAttribute (getDefElWithCorrectAttrs defEl useEl) name
  = mergedValue defEl useEl name.
Proof.
  intros Hnd. unfold getDefElWithCorrectAttrs, mergedValue.
  rewrite fold_useAttrStep; [reflexivity | assumption | ].
  intros k v Hin. unfold getAttribute. now apply getAttr_elem_of.
Qed.

Lemma merged_tagName (defEl useEl : Element) :
  tagName (getDefElWithCorrectAttrs defEl useEl) = tagName defEl.
Proof.
  unfold getDefElWithCorrectAttrs.
  generalize (attributes useEl) as l. intros l. revert defEl.
  assert (H : forall (l : Attrs) (d el : Element),
             tagName (fold_left (useAttrStep d useEl) l el) = tagName el).
  { clear. induction l as [|[k v] r IH]; intros d el; simpl; auto.
    rewrite IH. unfold useAttrStep; cbn [fst snd].
    destruct (includes skippedUseAttrs v); auto.
    destruct (negb (hasAttribute d k) || includes allwaysPassedUseAttrs k);
      auto. }
  intros defEl. apply H.
Qed.

(** C2 (code defect).  The template [<circle id="c" r="5">] has no [class];
    the referencing element [<use href="#c" class="id">] has one.  The
    claim has the merged element adopt it; the merge tests the attribute's
    value, not its name, against the skipped names and drops it.  The same
    test lets a [use] element's own [id] through when the template has
    none. *)
Theorem use_merge_tests_value_not_name :
  let defEl := mkElement "circle" [("id", "c"); ("r", "5")] in
  let useEl := mkElement "use" [("href", "#c"); ("class", "id")] in
  hasAttribute defEl "class" = false
  /\ getAttribute useEl "class" = Some "id"
  /\ getAttribute (getDefElWithCorrectAttrs defEl useEl) "class" = None
  /\ getAttribute
       (getDefElWithCorrectAttrs (mkElement "circle" [("r", "5")])
          (mkElement "use" [("id", "u1"); ("href", "circle")])) "id"
     = Some "u1".
Proof. repeat split; reflexivity. Qed.

(** The example of the specification: a template with [fill=red] and an
    instance with [fill=blue, x=5]. *)
Example merge_fill_red_x_5 :
  let merged :=
    getDefElWithCorrectAttrs
      (mkElement "rect" [("id", "t"); ("fill", "red")])
      (mkElement "use" [("href", "#t"); ("fill", "blue"); ("x", "5")]) in
  getAttribute merged "fill" = Some "red"
  /\ getAttribute merged "x" = Some "5".
Proof. split; reflexivity. Qed.

(** ** Shapes *)

Section Shapes.

Context {num : Type} {Ext : @Externals num}.

Implicit Types (el : Element) (grps : list (@Group)) (e : @ExElement num).


Lemma polygon_line_ok el grps (x0 y0 : num) (rest : list (@Point num)) :
  transformedPointsOf el grps = (x0, y0) :: rest ->
  exists e,
    polygon_line el grps = Ok e
    /\ points e = relativeTo x0 y0 ((x0, y0) :: rest) ++ [(n0, n0)]
    /\ x e = x0 /\ y e = y0.
Proof.
  intros Ht. unfold polygon_line. rewrite Ht.
  destruct (dimensionsFromPoints _) as [w h].
  eexists. split; [reflexivity|]. repeat split.
Qed.

Lemma polyline_line_ok el grps (x0 y0 : num) (rest : list (@Point num)) :
  transformedPointsOf el grps = (x0, y0) :: rest ->
  exists e,
    polyline_line el grps = Ok e
    /\ points e
       = relativeTo x0 y0 ((x0, y0) :: rest)
         ++ (if shouldFill el then [(n0, n0)] else [])
    /\ x e = x0 /\ y e = y0.
Proof.
  intros Ht. unfold polyline_line. rewrite Ht.
  destruct (dimensionsFromPoints _) as [w h].
  eexists. split; [reflexivity|]. repeat split.
Qed.





(** The two element builders return an element exactly when there is a
    first transformed point. *)
Lemma polygon_line_total el grps :
  transformedPointsOf el grps <> [] ->
  (exists e, polygon_line el grps = Ok e)
  /\ (exists e, polyline_line el grps = Ok e).
Proof.
  intros Hne. destruct (transformedPointsOf el grps) as [|[x0 y0] rest] eqn:Ht;
    [congruence|].
  destruct (polygon_line_ok el grps x0 y0 rest Ht) as (e & He & _).
  destruct (polyline_line_ok el grps x0 y0 rest Ht) as (e' & He' & _).
  eauto.
Qed.

End Shapes.

(** ** Paths *)

Section Paths.

Context {num : Type} {Ext : @Externals num}.

Implicit Types (el : Element) (grps : list Group) (e : @ExElement num)
  (st : PathState) (pointArr : list (@Point num)).








(** What the ["evenodd"] callback returns: the default element under the
    presentation attributes, with the geometry of the sub-polygon.  The
    group it draws at the first sub-polygon goes to the state only. *)
Lemma evenoddElement_styles el grps mat st idx pointArr e st' :
  evenoddElement el grps mat st idx pointArr = Ok (e, st') ->
  let styled := spread (presAttrs el grps) createExDraw in
  groupIds e = groupIds styled
  /\ backgroundColor e = backgroundColor styled
  /\ strokeColor e = strokeColor styled
  /\ strokeWidth e = strokeWidth styled.
Proof.
  unfold evenoddElement.
  destruct (transformPoints pointArr mat) as [|[x0 y0] r]; [discriminate|].
  destruct (dimensionsFromPoints _) as [w h].
  intros H. inversion H; subst. cbn. repeat split.
Qed.

Lemma mapWithState_lookup {A B St : Type}
    (f : St -> nat -> A -> Result (B * St)) :
  forall (l : list A) (st : St) (idx : nat) (bs : list B) (st' : St),
    mapWithState f st idx l = Ok (bs, st') ->
    length bs = length l
    /\ forall (i : nat) (b : B),
         bs !! i = Some b ->
         exists a s s', l !! i = Some a /\ f s (idx + i)%nat a = Ok (b, s').
Proof.
  induction l as [|a l IH]; intros st idx bs st' H; cbn in H.
  - inversion H; subst. split; auto. intros i b Hb. discriminate.
  - destruct (f st idx a) as [[b0 st1]|] eqn:Hf; [|discriminate].
    destruct (mapWithState f st1 (S idx) l) as [[bs0 st2]|] eqn:Hm;
      [|discriminate].
    inversion H; subst. destruct (IH _ _ _ _ Hm) as [Hlen Hall].
    split; [cbn; lia|].
    intros [|i] b Hb; cbn in Hb.
    + inversion Hb; subst. exists a, st, st1. split; auto.
      now rewrite Nat.add_0_r.
    + destruct (Hall i b Hb) as (a' & s & s' & Ha & Hfa).
      exists a', s, s'. split; auto.
      now rewrite Nat.add_succ_r.
Qed.

(** The colours, the stroke and the group list of the elements of an
    ["evenodd"] path are those of the default element under the
    presentation attributes: no colour is replaced, and the group drawn
    for the path is not written to the elements. *)
Lemma pathElements_evenodd el grps (ids : nat) (els : list (@ExElement num))
    st :
  get el "fill-rule" (Some "nonzero") = "evenodd" ->
  pathElements el grps ids = Ok (els, st) ->
  forall e, e ∈ els ->
    let styled := spread (presAttrs el grps) createExDraw in
    groupIds e = groupIds styled
    /\ backgroundColor e = backgroundColor styled
    /\ strokeColor e = strokeColor styled
    /\ strokeWidth e = strokeWidth styled.
Proof.
  intros Hrule. unfold pathElements. rewrite Hrule.
  cbn [String.eqb Ascii.eqb Bool.eqb randomId].
  intros Hm e He.
  apply mapWithState_lookup in Hm as [_ Hall].
  apply list_elem_of_lookup in He as [i Hi].
  destruct (Hall i e Hi) as (a & s & s' & _ & Hf).
  exact (evenoddElement_styles _ _ _ _ _ _ _ _ Hf).
Qed.

End Paths.

(** ** The dispatch of [walk] *)

Section Dispatch.

Context {num : Type} {Ext : @Externals num}.

Implicit Types (args : @WalkerArgs num Ext) (walk : @Walk num Ext)
  (node : Node).

Lemma lookupWalker_handler (name : string) walk :
  lookupWalker name (walkers walk)
  = option_map (fun h => runHandler h walk) (handlerOf name).
Proof.
  unfold handlerOf, walkers. cbn [lookupWalker].
  repeat (destruct (String.eqb _ name); [reflexivity|]).
  reflexivity.
Qed.


Lemma walk_zero args (ids : nat) (next : option Node) :
  walk 0 args ids next = OutOfFuel.
Proof. reflexivity. Qed.

Lemma walk_null (fuel : nat) args (ids : nat) :
  walk (S fuel) args ids None = Done (scene args) ids.
Proof. reflexivity. Qed.

Lemma walk_node (fuel : nat) args (ids : nat) node :
  walk (S fuel) args ids (Some node)
  = match handlerOf (nodeName node) with
    | Some h => runHandler h (walk fuel) args ids
    | None => Done (scene args) ids
    end.
Proof.
  cbn [walk]. rewrite lookupWalker_handler.
  now destruct (handlerOf (nodeName node)).
Qed.

Lemma walk_use (fuel : nat) args (ids : nat) node :
  nodeName node = "use" ->
  walk (S fuel) args ids (Some node) = walkers_use (walk fuel) args ids.
Proof. intros H. rewrite walk_node, H. reflexivity. Qed.

(** [last] of a list that ends with [a]. *)
Lemma last_app_one {A : Type} (l : list A) (a : A) : last (l ++ [a]) = Some a.
Proof. apply last_snoc. Qed.


(** ** Resolving a [use] element *)

Lemma useId_None (useEl : Element) :
  useId useEl = None
  <-> (getAttribute useEl "href" = None
       \/ getAttribute useEl "href" = Some "")
      /\ (getAttribute useEl "xlink:href" = None
          \/ getAttribute useEl "xlink:href" = Some "").
Proof.
  unfold useId, orElse.
  destruct (getAttribute useEl "href") as [[|c s]|];
    destruct (getAttribute useEl "xlink:href") as [[|c' s']|];
    split; intros H; try discriminate; auto;
    destruct H as [[H1|H1] [H2|H2]]; discriminate.
Qed.


(** C10.  When the walk of the merged element leaves several elements in
    the temporary scene, the one pushed to the scene is the last of them:
    the walk goes on with the scene extended by that element alone. *)
Theorem use_keeps_last (fuel : nat) args (ids ids1 : nat) node
    (id : string) (defEl : Element) (earlier : list (@ExElement num))
    (lastEl : @ExElement num) :
  nodeName node = "use" ->
  useId (asElement (currentNode (tw args))) = Some id ->
  querySelector (root args) id = Some defEl ->
  innerWalk (walk fuel) args ids defEl = Done (earlier ++ [lastEl]) ids1 ->
  walk (S fuel) args ids (Some node)
  = advance (walk fuel) (with_scene (scene args ++ [lastEl]) args) ids1
      (nextNode (tw args)).
Proof.
  intros Hn Hid Hq Hw. rewrite (walk_use fuel args ids node Hn).
  unfold walkers_use, resolveUse. rewrite Hid, Hq.
  unfold innerWalk, finalElOf in Hw. rewrite Hw.
  rewrite last_app_one. reflexivity.
Qed.

Lemma resolveUse_found walk args (ids : nat) (ref : string)
    (defEl : Element) :
  useId (asElement (currentNode (tw args))) = Some ref ->
  querySelector (root args) ref = Some defEl ->
  resolveUse walk args ids
  = match innerWalk walk args ids defEl with
    | Done tempScene ids1 =>
        match last tempScene with
        | None => UseThrow "Unable to create ex element"
        | Some exEl => UseOk exEl ids1
        end
    | Throw msg _ => UseThrow msg
    | OutOfFuel => UseOutOfFuel
    end.
Proof. intros Hid Hq. unfold resolveUse. now rewrite Hid, Hq. Qed.

(** A merged element that is a [use] element resolving to a template
    which merges with it into itself again: its walk calls itself with the
    same arguments and does not come back, whatever the fuel. *)
Lemma merged_walk_never_returns args (ids : nat) (ref : string)
    (defEl : Element) :
  nodeName (currentNode (tw args)) = "use" ->
  useId (asElement (currentNode (tw args))) = Some ref ->
  querySelector (root args) ref = Some defEl ->
  finalElOf args defEl = currentNode (tw args) ->
  tw args = createTreeWalker (currentNode (tw args)) ->
  scene args = [] ->
  forall fuel : nat,
    walk fuel args ids (Some (currentNode (tw args))) = OutOfFuel.
Proof.
  intros Hn Hid Hq Hfix Htw Hs.
  assert (Hargs : tempArgs args (finalElOf args defEl) = args).
  { rewrite Hfix. destruct args as [r t sc g]. cbn in *.
    unfold tempArgs, with_tw, with_scene. cbn. now rewrite <- Htw, Hs. }
  induction fuel as [|fuel IH]; [reflexivity|].
  rewrite (walk_use fuel args ids _ Hn).
  unfold walkers_use, resolveUse. rewrite Hid, Hq.
  fold (finalElOf args defEl). rewrite Hargs, Hfix, IH. reflexivity.
Qed.

End Dispatch.

(** ** Nodes the filter rejects *)










Lemma nextNode_frame (t : TreeWalker) :
  nextNode t
  = nextFollowing (mkFrame (currentNode t) (children (currentNode t))
                   :: ancestors t).
Proof.
  unfold nextNode. now destruct (children (currentNode t)).
Qed.




Section Skipping.

Context {num : Type} {Ext : @Externals num}.

Implicit Types (args : @WalkerArgs num Ext) (walk : @Walk num Ext).




(** A tag is one of the supported tags exactly when the filter accepts the
    element; ["line"] is not one of them. *)
Lemma nodeValidator_supported (el : Element) (cs : list Node) :
  nodeValidator (ElementNode el cs) = includes SUPPORTED_TAGS (tagName el).
Proof. reflexivity. Qed.


End Skipping.

(** ** Group membership *)

Section Groups.

Context {num : Type} {Ext : @Externals num}.

Implicit Types (args : @WalkerArgs num Ext) (walk : @Walk num Ext)
  (e : @ExElement num) (grps : list Group) (el : Element).







Lemma groupIds_circle el grps :
  groupIds (circle_element el grps) = map id grps.
Proof. reflexivity. Qed.

Lemma groupIds_ellipse el grps :
  groupIds (ellipse_element el grps) = map id grps.
Proof. reflexivity. Qed.










End Groups.

(** ** Concrete documents *)

Module Examples.

Import Sample.

Open Scope Z_scope.






(** C4 (code defect).  An ["evenodd"] path with two sub-polygons: the
    callback draws the group 1 for the path and leaves it in its local
    variable; both elements keep the empty group list of the default
    element. *)
Theorem evenodd_group_not_assigned :
  exists e1 e2 st,
    get evenoddPath "fill-rule" (Some "nonzero") = "evenodd"
    /\ pathElements evenoddPath [] 0 = Ok ([e1; e2], st)
    /\ localGroup st = 1%nat
    /\ groupIds e1 = [] /\ groupIds e2 = []
    /\ backgroundColor e1 = "green" /\ backgroundColor e2 = "green".
Proof.
  eexists _, _, _. split; [reflexivity|]. split; [reflexivity|].
  cbn. repeat split.
Qed.



(** A reference to a path with two sub-polygons: only the second one, the
    white hole, reaches the scene. *)
Lemma use_keeps_last_witness :
  nodeName useNode = "use"
  /\ useId (asElement (currentNode (tw (argsAt useOfPathDoc useNode []))))
     = Some "#p"
  /\ querySelector (Externals := ext) useOfPathDoc "#p" = Some holedPath
  /\ innerWalk (walk 2) (argsAt useOfPathDoc useNode []) 0 holedPath
     = Done ([squarePiece] ++ [holePiece]) 2
  /\ backgroundColor squarePiece = "green"
  /\ backgroundColor holePiece = "#FFFFFF"
  /\ walk 3 (argsAt useOfPathDoc useNode []) 0 (Some useNode)
     = Done [holePiece] 2.
Proof.
  split; [reflexivity|]. split; [reflexivity|]. split; [reflexivity|].
  split; [reflexivity|]. split; [reflexivity|]. split; [reflexivity|].
  rewrite (use_keeps_last (Ext := ext) 2 (argsAt useOfPathDoc useNode [])
             0%nat 2%nat useNode "#p" holedPath [squarePiece] holePiece
             eq_refl eq_refl eq_refl eq_refl).
  reflexivity.
Defined.


(** The example of the specification: the two circles of the first group
    list its identifier 0, the circle of the sibling group lists 1 only. *)
Example two_groups :
  exists c1 c2 c3,
    run 8 twoGroupsDoc = Done [c1; c2; c3] 2
    /\ groupIds c1 = [0%nat] /\ groupIds c2 = [0%nat]
    /\ groupIds c3 = [1%nat].
Proof. eexists _, _, _. split; [reflexivity|]. cbn. auto. Qed.







(** A reference to a [use] element: the merged element is the referenced
    [use] with the [href] of the referencing one, which points to the
    referenced [use] again.  The walk never comes back. *)
Lemma use_of_use_never_returns (fuel : nat) :
  run fuel useOfUseDoc = OutOfFuel.
Proof.
  pose (merged := ElementNode
                    (mkElement "use" [("id", "a"); ("href", "#a")]) []).
  pose (template := mkElement "use" [("id", "a"); ("href", "#b")]).
  pose (inner := @mkArgs Z ext useOfUseDoc (createTreeWalker merged) [] []).
  destruct fuel as [|[|f]]; try reflexivity.
  unfold run. rewrite walk_node.
  change (walkers_use (walk f) (argsAt useOfUseDoc
            (el "use" [("href", "#a")] []) []) 0%nat = OutOfFuel).
  unfold walkers_use.
  rewrite (resolveUse_found (walk f)
             (argsAt useOfUseDoc (el "use" [("href", "#a")] []) []) 0%nat
             "#a" template eq_refl eq_refl).
  change (innerWalk (walk f) _ 0%nat template)
    with (walk f inner 0%nat (Some (currentNode (tw inner)))).
  rewrite (merged_walk_never_returns (Ext := ext) inner 0%nat "#a" template
             eq_refl eq_refl eq_refl eq_refl eq_refl eq_refl f).
  reflexivity.
Qed.

End Examples.

(** * Further properties of the walker *)

(** ** The order in which the tree walker moves *)

Lemma visible_children (n : Node) :
  visible n = visibleList (children n).
Proof.
  destruct n as [e cs|s]; [|reflexivity].
  cbn [visible children]. unfold visibleList.
  induction cs as [|c cs IH]; cbn [flat_map]; [reflexivity|].
  now rewrite IH.
Qed.

Lemma firstAccepted_visible (l : list Node) :
  match firstAccepted l with
  | Some (n, r) =>
      nodeValidator n = true
      /\ visibleList l = n :: visible n ++ visibleList r
  | None => visibleList l = []
  end.
Proof.
  induction l as [|c l IH]; cbn [firstAccepted]; [reflexivity|].
  unfold visibleList in *. cbn [flat_map].
  destruct (nodeValidator c) eqn:Hc.
  - split; [exact Hc|reflexivity].
  - exact IH.
Qed.

Lemma nextFollowing_upcoming (anc : list Frame) :
  match nextFollowing anc with
  | Some t =>
      nodeValidator (currentNode t) = true
      /\ upFrames anc = currentNode t :: upcoming t
  | None => upFrames anc = []
  end.
Proof.
  induction anc as [|f up IH]; cbn [nextFollowing]; [reflexivity|].
  unfold upFrames in *. cbn [flat_map].
  pose proof (firstAccepted_visible (following f)) as Hf.
  destruct (firstAccepted (following f)) as [[n r]|].
  - destruct Hf as [Hn Hv]. split; [exact Hn|].
    rewrite Hv. unfold upcoming, upFrames. cbn.
    now rewrite <- app_assoc.
  - rewrite Hf. exact IH.
Qed.

Lemma traverseSiblings_upcoming (anc : list Frame) (t : TreeWalker) :
  traverseSiblings anc = Some t ->
  nodeValidator (currentNode t) = true
  /\ upFrames anc = currentNode t :: upcoming t.
Proof.
  revert t. induction anc as [|f up IH]; intros t; cbn [traverseSiblings];
    [discriminate|].
  unfold upFrames in *. cbn [flat_map].
  pose proof (firstAccepted_visible (following f)) as Hf.
  destruct (firstAccepted (following f)) as [[n r]|].
  - destruct Hf as [Hn Hv]. intros Ht. inversion Ht; subst. clear Ht.
    split; [exact Hn|].
    rewrite Hv. unfold upcoming, upFrames. cbn.
    now rewrite <- app_assoc.
  - rewrite Hf. destruct up as [|f2 up]; [discriminate|].
    destruct (nodeValidator (parent f)); [discriminate|].
    intros Ht. exact (IH t Ht).
Qed.

Lemma nextNode_upcoming (t : TreeWalker) :
  match nextNode t with
  | Some t' =>
      nodeValidator (currentNode t') = true
      /\ upcoming t = currentNode t' :: upcoming t'
  | None => upcoming t = []
  end.
Proof.
  rewrite nextNode_frame.
  pose proof (nextFollowing_upcoming
                (mkFrame (currentNode t) (children (currentNode t))
                 :: ancestors t)) as H.
  assert (Hup : upFrames (mkFrame (currentNode t) (children (currentNode t))
                          :: ancestors t) = upcoming t).
  { unfold upcoming, upFrames. cbn [flat_map following].
    now rewrite visible_children. }
  rewrite Hup in H. exact H.
Qed.

(** X1.  [nextNode] enumerates: it moves to the first of the nodes the
    walker has before it (the accepted nodes in document order, nothing
    below a rejected node, nothing beyond the root) and leaves the rest
    before the walker; it answers [null] exactly when none is left. *)
Theorem nextNode_enumerates (t : TreeWalker) :
  match nextNode t with
  | Some t' => upcoming t = currentNode t' :: upcoming t'
  | None => upcoming t = []
  end.
Proof.
  pose proof (nextNode_upcoming t) as H.
  destruct (nextNode t) as [t'|]; [exact (proj2 H)|exact H].
Qed.

(** X2.  Whatever [nextNode] or [nextSibling] moves to has been accepted by
    [nodeValidator]: its tag is one of the supported ones, it has a handler
    in [walkers], and it is not a ["line"] element.  The handler of
    ["line"] can only be reached by a direct call of [walk]. *)
Theorem moves_reach_supported_nodes (t t' : TreeWalker) :
  nextNode t = Some t' \/ nextSibling t = Some t' ->
  nodeValidator (currentNode t') = true
  /\ includes SUPPORTED_TAGS (nodeName (currentNode t')) = true
  /\ nodeName (currentNode t') <> "line"
  /\ nodeName (currentNode t') <> "#text".
Proof.
  intros H.
  assert (Hv : nodeValidator (currentNode t') = true).
  { destruct H as [H|H].
    - rewrite nextNode_frame in H.
      pose proof (nextFollowing_upcoming
                    (mkFrame (currentNode t) (children (currentNode t))
                     :: ancestors t)) as Hn.
      rewrite H in Hn. exact (proj1 Hn).
    - exact (proj1 (traverseSiblings_upcoming _ _ H)). }
  split; [exact Hv|].
  destruct (currentNode t') as [e cs|s]; [|discriminate].
  cbn in *. split; [exact Hv|].
  split; intros Heq; rewrite Heq in Hv; discriminate.
Qed.


Lemma nextNode_remaining (t t' : TreeWalker) :
  nextNode t = Some t' -> remaining t = S (remaining t').
Proof.
  intros H. pose proof (nextNode_upcoming t) as He. rewrite H in He.
  unfold remaining. now rewrite (proj2 He).
Qed.


(** ** The scene, the fuel, and references *)

Section Walks.

Context {num : Type} {Ext : @Externals num}.

Implicit Types (args : @WalkerArgs num Ext) (walk : @Walk num Ext)
  (e : @ExElement num) (grps : list Group) (el : Element).

Lemma with_scene_app (pre : Scene) args (els : list (@ExElement num)) :
  with_scene ((pre ++ scene args) ++ els) (with_scene (pre ++ scene args) args)
  = with_scene (pre ++ scene (with_scene (scene args ++ els) args))
      (with_scene (scene args ++ els) args).
Proof. unfold with_scene. cbn. now rewrite app_assoc. Qed.

Lemma advance_frames walk (pre : Scene) args (ids : nat)
    (o : option TreeWalker) :
  framesScene walk ->
  advance walk (with_scene (pre ++ scene args) args) ids o
  = prepend pre (advance walk args ids o).
Proof.
  intros Hw. destruct o as [t|]; cbn [advance].
  - exact (Hw pre (with_tw t args) ids (Some (currentNode t))).
  - exact (Hw pre args ids None).
Qed.

Lemma advance_frames_app walk (pre : Scene) args (ids : nat)
    (els : list (@ExElement num)) (o : option TreeWalker) :
  framesScene walk ->
  advance walk
    (with_scene ((pre ++ scene args) ++ els)
       (with_scene (pre ++ scene args) args)) ids o
  = prepend pre (advance walk (with_scene (scene args ++ els) args) ids o).
Proof.
  intros Hw. rewrite with_scene_app. now apply advance_frames.
Qed.

Lemma walk_framesScene (fuel : nat) : framesScene (walk fuel).
Proof.
  induction fuel as [|fuel IH]; intros pre args ids next; [reflexivity|].
  destruct next as [node|]; [|reflexivity].
  rewrite !walk_node.
  destruct (handlerOf (nodeName node)) as [h|]; [|reflexivity].
  destruct h; cbn [runHandler].
  - (* svg *) unfold walkers_svg. now apply advance_frames.
  - (* g *)
    unfold walkers_g. cbn [randomId].
    change (advance (walk fuel)
              (with_groups _ (with_tw _ (with_scene (pre ++ scene args) args)))
              (S ids) _)
      with (advance (walk fuel)
              (with_scene
                 (pre ++ scene
                    (with_groups
                       (groups args
                        ++ [mkGroup ids (asElement (currentNode (tw args)))])
                       (with_tw (createTreeWalker (currentNode (tw args)))
                          args)))
                 (with_groups
                    (groups args
                     ++ [mkGroup ids (asElement (currentNode (tw args)))])
                    (with_tw (createTreeWalker (currentNode (tw args)))
                       args)))
              (S ids)
              (nextNode (createTreeWalker (currentNode (tw args))))).
    rewrite (advance_frames (walk fuel) pre _ (S ids) _ IH).
    cbn [with_groups with_tw tw].
    destruct (advance (walk fuel) _ (S ids) _) as [s ids2|msg s|];
      cbn [prepend]; try reflexivity.
    exact (advance_frames (walk fuel) pre (with_scene s args) ids2 _ IH).
  - (* use *)
    unfold walkers_use.
    change (resolveUse (walk fuel) (with_scene (pre ++ scene args) args) ids)
      with (resolveUse (walk fuel) args ids).
    destruct (resolveUse (walk fuel) args ids) as [exEl ids1|msg|];
      try reflexivity.
    exact (advance_frames_app (walk fuel) pre args ids1 [exEl] _ IH).
  - (* circle *)
    exact (advance_frames_app (walk fuel) pre args ids [_] _ IH).
  - (* ellipse *)
    exact (advance_frames_app (walk fuel) pre args ids [_] _ IH).
  - (* line *) unfold walkers_line. now apply advance_frames.
  - (* polygon *)
    unfold walkers_polygon. cbn [with_scene tw groups scene].
    destruct (polygon_line _ _) as [line|msg]; [|reflexivity].
    exact (advance_frames_app (walk fuel) pre args ids [line] _ IH).
  - (* polyline *)
    unfold walkers_polyline. cbn [with_scene tw groups scene].
    destruct (polyline_line _ _) as [line|msg]; [|reflexivity].
    exact (advance_frames_app (walk fuel) pre args ids [line] _ IH).
  - (* text *)
    exact (advance_frames_app (walk fuel) pre args ids _ _ IH).
  - (* rect *)
    exact (advance_frames_app (walk fuel) pre args ids [_] _ IH).
  - (* path *)
    unfold walkers_path. cbn [with_scene tw groups scene].
    destruct (pathElements _ _ ids) as [[els st]|msg]; [|reflexivity].
    exact (advance_frames_app (walk fuel) pre args (supply st) els _ IH).
Qed.

(** X3.  The walker never reads, removes or reorders what is already in
    the scene.  Walking with some elements put before the scene gives the
    outcome of the walk without them, with those elements before it; so the
    scene a walk ends with, or throws with, is the scene it was given
    followed by the elements it made. *)
Theorem scene_is_only_appended_to (fuel : nat) args (ids : nat)
    (next : option Node) :
  (forall pre : Scene,
      walk fuel (with_scene (pre ++ scene args) args) ids next
      = prepend pre (walk fuel args ids next))
  /\ (forall (s : Scene) (ids' : nat),
         walk fuel args ids next = Done s ids' ->
         exists new,
           s = scene args ++ new
           /\ walk fuel (with_scene [] args) ids next = Done new ids')
  /\ (forall (msg : string) (s : Scene),
         walk fuel args ids next = Throw msg s ->
         exists new,
           s = scene args ++ new
           /\ walk fuel (with_scene [] args) ids next = Throw msg new).
Proof.
  split; [intros pre; apply walk_framesScene|].
  pose proof (walk_framesScene fuel (scene args) (with_scene [] args) ids
                next) as H.
  cbn [scene with_scene] in H. rewrite app_nil_r in H.
  replace (with_scene (scene args) (with_scene [] args)) with args in H
    by now destruct args.
  split.
  - intros s ids' Hd. rewrite Hd in H.
    destruct (walk fuel (with_scene [] args) ids next) as [new i| |];
      try discriminate.
    inversion H; subst. now exists new.
  - intros msg s Hd. rewrite Hd in H.
    destruct (walk fuel (with_scene [] args) ids next) as [|m new|];
      try discriminate.
    inversion H; subst. now exists new.
Qed.

End Walks.

Section References.

Context {num : Type} {Ext : @Externals num}.

Implicit Types (args : @WalkerArgs num Ext) (walk : @Walk num Ext)
  (e : @ExElement num) (grps : list Group) (el : Element).

Lemma handlerOf_Huse (name : string) :
  handlerOf name = Some Huse -> name = "use".
Proof.
  unfold handlerOf. cbn [lookupWalker].
  repeat match goal with
         | |- (if String.eqb ?a name then _ else _) = _ -> _ =>
             let E := fresh "E" in
             destruct (String.eqb a name) eqn:E;
             [first [ discriminate
                    | intros _; apply String.eqb_eq in E; now subst ] | ]
         end.
  discriminate.
Qed.

Lemma handlerOf_Hg (name : string) :
  handlerOf name = Some Hg -> name = "g".
Proof.
  unfold handlerOf. cbn [lookupWalker].
  repeat match goal with
         | |- (if String.eqb ?a name then _ else _) = _ -> _ =>
             let E := fresh "E" in
             destruct (String.eqb a name) eqn:E;
             [first [ discriminate
                    | intros _; apply String.eqb_eq in E; now subst ] | ]
         end.
  discriminate.
Qed.

Lemma text_elements_no_children (doc : document) el grps :
  text_elements doc (ElementNode el []) grps = [].
Proof. reflexivity. Qed.

(** The walk of a node without children by a walker rooted at it: the
    handler runs once and there is nowhere to go. *)
Lemma leaf_walk (fuel : nat) args (ids : nat) el :
  tw args = createTreeWalker (ElementNode el []) ->
  walk (S (S fuel)) args ids (Some (ElementNode el []))
  = match handlerOf (tagName el) with
    | None | Some Hsvg | Some Hline | Some Htext => Done (scene args) ids
    | Some Hg => Done (scene args) (S ids)
    | Some Hcircle =>
        Done (scene args ++ [circle_element el (groups args)]) ids
    | Some Hellipse =>
        Done (scene args ++ [ellipse_element el (groups args)]) ids
    | Some Hrect => Done (scene args ++ [rect_element el (groups args)]) ids
    | Some Hpolygon =>
        match polygon_line el (groups args) with
        | Ok line => Done (scene args ++ [line]) ids
        | Raise msg => Throw msg (scene args)
        end
    | Some Hpolyline =>
        match polyline_line el (groups args) with
        | Ok line => Done (scene args ++ [line]) ids
        | Raise msg => Throw msg (scene args)
        end
    | Some Hpath =>
        match pathElements el (groups args) ids with
        | Ok (els, st) => Done (scene args ++ els) (supply st)
        | Raise msg => Throw msg (scene args)
        end
    | Some Huse => walkers_use (walk (S fuel)) args ids
    end.
Proof.
  intros Htw. rewrite walk_node. cbn [nodeName].
  destruct (handlerOf (tagName el)) as [h|]; [|reflexivity].
  destruct h; cbn [runHandler];
    unfold walkers_svg, walkers_g, walkers_circle, walkers_ellipse,
      walkers_line, walkers_polygon, walkers_polyline, walkers_text,
      walkers_rect, walkers_path;
    rewrite ?Htw; cbn [randomId with_tw with_groups tw createTreeWalker
      currentNode asElement children nextNode nextSibling ancestors
      nextFollowing traverseSiblings advance push with_scene scene groups
      root walk];
    try reflexivity.
  (* text *)
  rewrite text_elements_no_children. now rewrite app_nil_r.
Qed.


(** What [walkers.use] does once the reference is resolved, in terms of the
    walk of the merged element. *)
Lemma walk_use_found (fuel : nat) args (ids : nat) (node : Node)
    (ref : string) (defEl : Element) :
  nodeName node = "use" ->
  useId (asElement (currentNode (tw args))) = Some ref ->
  querySelector (root args) ref = Some defEl ->
  walk (S fuel) args ids (Some node)
  = match innerWalk (walk fuel) args ids defEl with
    | Done tempScene ids1 =>
        match last tempScene with
        | None => Throw "Unable to create ex element" (scene args)
        | Some exEl =>
            advance (walk fuel) (push exEl args) ids1 (nextNode (tw args))
        end
    | Throw msg _ => Throw msg (scene args)
    | OutOfFuel => OutOfFuel
    end.
Proof.
  intros Hn Hid Hq. rewrite (walk_use fuel args ids node Hn).
  unfold walkers_use. rewrite (resolveUse_found _ _ _ ref defEl Hid Hq).
  destruct (innerWalk _ _ _ _) as [temp ids1| |]; try reflexivity.
  now destruct (last temp).
Qed.

Lemma innerWalk_leaf (fuel : nat) args (ids : nat) (defEl : Element) :
  innerWalk (walk (S (S fuel))) args ids defEl
  = walk (S (S fuel))
      (tempArgs args (finalElOf args defEl)) ids
      (Some (ElementNode
               (getDefElWithCorrectAttrs defEl
                  (asElement (currentNode (tw args)))) [])).
Proof. reflexivity. Qed.


(** X5.  A reference to a circle, an ellipse or a rectangle is resolved at
    the place of the [use] element: the element pushed is the one the
    handler of the template's tag makes for the merged element under the
    groups open at the [use] element, and the walk goes on at the node after
    the [use] element. *)
Theorem use_of_shape_is_inlined (fuel : nat) args (ids : nat) (node : Node)
    (ref : string) (defEl : Element) :
  nodeName node = "use" ->
  useId (asElement (currentNode (tw args))) = Some ref ->
  querySelector (root args) ref = Some defEl ->
  let merged :=
    getDefElWithCorrectAttrs defEl (asElement (currentNode (tw args))) in
  forall shape : @ExElement num,
    (tagName defEl = "circle" /\ shape = circle_element merged (groups args))
    \/ (tagName defEl = "ellipse"
        /\ shape = ellipse_element merged (groups args))
    \/ (tagName defEl = "rect" /\ shape = rect_element merged (groups args)) ->
    walk (S (S (S fuel))) args ids (Some node)
    = advance (walk (S (S fuel))) (with_scene (scene args ++ [shape]) args)
        ids (nextNode (tw args)).
Proof.
  intros Hn Hid Hq merged shape Hshape.
  rewrite (walk_use_found _ args ids node ref defEl Hn Hid Hq).
  rewrite innerWalk_leaf, leaf_walk by reflexivity.
  rewrite merged_tagName. fold merged.
  destruct Hshape as [[Ht ->]|[[Ht ->]|[Ht ->]]]; rewrite Ht; reflexivity.
Qed.



End References.

(** ** More on the merge of a [use] element and its template *)

Lemma setAttr_names (name value : string) (l : Attrs) :
  map fst (setAttr name value l)
  = if hasAttribute (mkElement "" l) name then map fst l
    else map fst l ++ [name].
Proof.
  unfold hasAttribute, getAttribute. cbn [attributes].
  induction l as [|[k v] r IH]; cbn [setAttr getAttr map fst app];
    [reflexivity|].
  destruct (String.eqb k name) eqn:E; cbn [map fst]; [reflexivity|].
  rewrite IH. now destruct (getAttr name r).
Qed.

Lemma setAttr_same (name value : string) (l : Attrs) :
  getAttr name l = Some value -> setAttr name value l = l.
Proof.
  induction l as [|[k v] r IH]; cbn [setAttr getAttr]; [discriminate|].
  destruct (String.eqb k name) eqn:E.
  - intros H. inversion H; subst. reflexivity.
  - intros H. now rewrite IH.
Qed.

Lemma useAttrStep_names (defEl useEl el : Element) (attr : string * string) :
  exists added,
    map fst (attributes (useAttrStep defEl useEl el attr))
    = map fst (attributes el) ++ added
    /\ (added = [] \/ added = [fst attr]).
Proof.
  unfold useAttrStep.
  destruct (includes skippedUseAttrs (snd attr));
    [exists []; rewrite app_nil_r; auto|].
  destruct (negb (hasAttribute defEl (fst attr))
            || includes allwaysPassedUseAttrs (fst attr));
    [|exists []; rewrite app_nil_r; auto].
  cbn [setAttribute attributes]. rewrite setAttr_names.
  destruct (hasAttribute _ _).
  - exists []. rewrite app_nil_r. auto.
  - exists [fst attr]. auto.
Qed.

(** X7.  The merge keeps the template: the merged element has the
    template's tag, the names of the template's attributes come first and
    in their order, and every name after them is the name of an attribute
    of the [use] element.  No attribute of the template is ever removed. *)
Theorem merge_keeps_template (defEl useEl : Element) :
  tagName (getDefElWithCorrectAttrs defEl useEl) = tagName defEl
  /\ exists added,
       map fst (attributes (getDefElWithCorrectAttrs defEl useEl))
       = map fst (attributes defEl) ++ added
       /\ forall name, name ∈ added -> name ∈ map fst (attributes useEl).
Proof.
  split; [apply merged_tagName|].
  unfold getDefElWithCorrectAttrs.
  assert (H : forall (l : Attrs) (el : Element),
             exists added,
               map fst (attributes (fold_left (useAttrStep defEl useEl) l el))
               = map fst (attributes el) ++ added
               /\ forall name, name ∈ added -> name ∈ map fst l).
  { induction l as [|attr l IH]; intros el; cbn [fold_left].
    - exists []. rewrite app_nil_r. split; [reflexivity|].
      intros name Hn. now apply elem_of_nil in Hn.
    - destruct (IH (useAttrStep defEl useEl el attr)) as (a2 & Ha2 & Hin2).
      destruct (useAttrStep_names defEl useEl el attr) as (a1 & Ha1 & Hin1).
      exists (a1 ++ a2). rewrite Ha2, Ha1, app_assoc. split; [reflexivity|].
      intros name Hn. cbn [map]. apply elem_of_app in Hn as [Hn|Hn].
      + destruct Hin1 as [->| ->]; [now apply elem_of_nil in Hn|].
        apply list_elem_of_singleton in Hn. subst. constructor.
      + constructor. now apply Hin2. }
  apply H.
Qed.

(** X8.  Merging twice is merging once: the merged element, merged again
    with the same [use] element, is left as it is.  (So a [use] element
    whose template is itself a [use] element is walked with the same merged
    element again and again.) *)
Theorem merge_is_idempotent (defEl useEl : Element) :
  NoDup (map fst (attributes useEl)) ->
  getDefElWithCorrectAttrs (getDefElWithCorrectAttrs defEl useEl) useEl
  = getDefElWithCorrectAttrs defEl useEl.
Proof.
  intros Hnd.
  set (merged := getDefElWithCorrectAttrs defEl useEl).
  assert (Hstep : forall k v,
             (k, v) ∈ attributes useEl ->
             useAttrStep merged useEl merged (k, v) = merged).
  { intros k v Hin.
    assert (Hu : getAttribute useEl k = Some v)
      by (unfold getAttribute; now apply getAttr_elem_of).
    pose proof (merged_attribute defEl useEl k Hnd) as Hm.
    fold merged in Hm. unfold mergedValue in Hm. rewrite Hu in Hm.
    unfold useAttrStep. cbn [fst snd].
    destruct (includes skippedUseAttrs v); [reflexivity|].
    destruct (negb (hasAttribute merged k)
              || includes allwaysPassedUseAttrs k) eqn:Hc; [|reflexivity].
    assert (Hv : getAttribute merged k = Some v).
    { destruct (includes allwaysPassedUseAttrs k).
      - now rewrite orb_true_r in Hm.
      - rewrite orb_false_r in Hc, Hm.
        unfold hasAttribute in Hc.
        destruct (negb (hasAttribute defEl k)) eqn:Hd; [exact Hm|].
        unfold hasAttribute in Hd.
        rewrite Hm in Hc.
        destruct (getAttribute defEl k); discriminate. }
    rewrite Hu.
    replace (match v with "" => "" | String _ _ => v end) with v
      by now destruct v.
    unfold setAttribute. rewrite (setAttr_same k v _ Hv).
    now destruct merged. }
  unfold getDefElWithCorrectAttrs at 1. fold merged.
  assert (H : forall l : Attrs,
             (forall k v, (k, v) ∈ l -> (k, v) ∈ attributes useEl) ->
             fold_left (useAttrStep merged useEl) l merged = merged).
  { induction l as [|[k v] l IH]; intros Hl; cbn [fold_left]; [reflexivity|].
    rewrite Hstep by (apply Hl; constructor).
    apply IH. intros k' v' Hin. apply Hl. now constructor. }
  apply H. auto.
Qed.

(** ** Errors and geometry of the shapes *)

Section MoreShapes.

Context {num : Type} {Ext : @Externals num}.

Implicit Types (args : @WalkerArgs num Ext) (walk : @Walk num Ext)
  (e : @ExElement num) (grps : list Group) (el : Element)
  (st : PathState) (pointArr : list (@Point num)).





Lemma pathCallback_geometry el grps (mat : mat4) (fillColor : string) st
    (idx : nat) pointArr e st' :
  nonzeroElement el grps mat fillColor st idx pointArr = Ok (e, st')
  \/ evenoddElement el grps mat st idx pointArr = Ok (e, st') ->
  exists x0 y0 rest,
    transformPoints pointArr mat = (x0, y0) :: rest
    /\ points e = relativeTo x0 y0 ((x0, y0) :: rest)
    /\ x e = nadd x0 (getNum el "x" n0)
    /\ y e = nadd y0 (getNum el "y" n0)
    /\ (width e, height e) = dimensionsFromPoints ((x0, y0) :: rest).
Proof.
  unfold nonzeroElement, evenoddElement.
  destruct (transformPoints pointArr mat) as [|[x0 y0] r];
    [intros [H|H]; discriminate|].
  destruct (dimensionsFromPoints _) as [w h] eqn:Hd.
  intros [H|H]; inversion H; subst; exists x0, y0, r; cbn;
    repeat split; symmetry; exact Hd.
Qed.

(** X10.  The geometry of the elements of a path, whatever the fill rule:
    the i-th element belongs to the i-th sub-polygon; its points are the
    transformed points of the sub-polygon minus the first of them, its
    origin is that first point moved by the element's own [x] and [y]
    attributes, and its width and height are the dimensions of the
    transformed points. *)
Theorem path_geometry el grps (ids : nat) (els : list (@ExElement num)) st :
  pathElements el grps ids = Ok (els, st) ->
  forall (i : nat) e,
    els !! i = Some e ->
    exists pointArr x0 y0 rest,
      pointsOnPath (get el "d" None) !! i = Some pointArr
      /\ transformPoints pointArr (getTransformMatrix el grps)
         = (x0, y0) :: rest
      /\ points e = relativeTo x0 y0 ((x0, y0) :: rest)
      /\ length (points e) = length (transformPoints pointArr
                                       (getTransformMatrix el grps))
      /\ x e = nadd x0 (getNum el "x" n0)
      /\ y e = nadd y0 (getNum el "y" n0)
      /\ (width e, height e) = dimensionsFromPoints ((x0, y0) :: rest).
Proof.
  unfold pathElements. cbn [randomId].
  intros Hm i e He.
  assert (Hcb : exists pointArr s idx s',
             pointsOnPath (get el "d" None) !! i = Some pointArr
             /\ (nonzeroElement el grps (getTransformMatrix el grps)
                   (get el "fill" (Some "transparent")) s idx pointArr
                 = Ok (e, s')
                 \/ evenoddElement el grps (getTransformMatrix el grps) s idx
                      pointArr = Ok (e, s'))).
  { destruct (String.eqb _ "nonzero").
    - apply mapWithState_lookup in Hm as [_ Hall].
      destruct (Hall i e He) as (a & s & s' & Ha & Hf).
      exists a, s, (0 + i)%nat, s'. auto.
    - destruct (String.eqb _ "evenodd").
      + apply mapWithState_lookup in Hm as [_ Hall].
        destruct (Hall i e He) as (a & s & s' & Ha & Hf).
        exists a, s, (0 + i)%nat, s'. auto.
      + inversion Hm; subst. discriminate. }
  destruct Hcb as (pointArr & s & idx & s' & Hp & Hf).
  destruct (pathCallback_geometry _ _ _ _ _ _ _ _ _ Hf)
    as (x0 & y0 & rest & Ht & Hpts & Hx & Hy & Hd).
  exists pointArr, x0, y0, rest. repeat split; auto.
  rewrite Hpts, Ht. unfold relativeTo. now rewrite length_map.
Qed.

(** X11.  A polygon or polyline without a first transformed point (no
    [points] attribute, say) makes its handler throw on reading that point,
    and nothing is pushed; with a first point the handler pushes exactly
    one element and moves on. *)
Theorem polygon_error_behaviour (fuel : nat) args (ids : nat) (node : Node) :
  let el := asElement (currentNode (tw args)) in
  nodeName node = "polygon" \/ nodeName node = "polyline" ->
  (transformedPointsOf el (groups args) = [] ->
   walk (S fuel) args ids (Some node) = Throw typeError (scene args))
  /\ (transformedPointsOf el (groups args) <> [] ->
      exists line,
        (polygon_line el (groups args) = Ok line
         \/ polyline_line el (groups args) = Ok line)
        /\ walk (S fuel) args ids (Some node)
           = advance (walk fuel) (with_scene (scene args ++ [line]) args) ids
               (nextNode (tw args))).
Proof.
  intros el Hn. split.
  - intros Hempty.
    destruct Hn as [Hn|Hn]; rewrite walk_node, Hn; cbn [handlerOf
      lookupWalker String.eqb Ascii.eqb Bool.eqb runHandler];
      unfold walkers_polygon, walkers_polyline, polygon_line, polyline_line;
      fold el; now rewrite Hempty.
  - intros Hne.
    destruct (polygon_line_total el (groups args) Hne)
      as [(l1 & Hl1) (l2 & Hl2)].
    destruct Hn as [Hn|Hn]; rewrite walk_node, Hn; cbn [handlerOf
      lookupWalker String.eqb Ascii.eqb Bool.eqb runHandler];
      unfold walkers_polygon, walkers_polyline; fold el.
    + exists l1. rewrite Hl1. auto.
    + exists l2. rewrite Hl2. auto.
Qed.



(** X14.  After the subtree of a [g] element the walk goes on with
    [nextSibling()], which does not climb past an accepted parent.  When
    the [g] element has no accepted sibling after it and its parent is an
    accepted node that is not the root of the walker (a nested [svg], say),
    the walk ends with the subtree of the [g] element: whatever follows the
    parent is not handled. *)
Theorem walk_ends_after_last_group (fuel : nat) args (ids : nat)
    (node : Node) (f f2 : Frame) (up : list Frame) :
  nodeName node = "g" ->
  ancestors (tw args) = f :: f2 :: up ->
  firstAccepted (following f) = None ->
  nodeValidator (parent f) = true ->
  nextSibling (tw args) = None
  /\ upcoming (tw args)
     = visible (currentNode (tw args)) ++ upFrames (f2 :: up)
  /\ walk (S (S fuel)) args ids (Some node)
     = advance (walk (S fuel))
         (with_groups
            (groups args
             ++ [mkGroup ids (asElement (currentNode (tw args)))])
            (with_tw (createTreeWalker (currentNode (tw args))) args))
         (S ids) (nextNode (createTreeWalker (currentNode (tw args)))).
Proof.
  intros Hn Hanc Hfa Hp.
  assert (Hsib : nextSibling (tw args) = None).
  { unfold nextSibling. rewrite Hanc. cbn [traverseSiblings].
    now rewrite Hfa, Hp. }
  split; [exact Hsib|]. split.
  - unfold upcoming. rewrite Hanc. unfold upFrames at 1. cbn [flat_map].
    pose proof (firstAccepted_visible (following f)) as Hv.
    rewrite Hfa in Hv. now rewrite Hv.
  - rewrite walk_node, Hn. cbn [handlerOf lookupWalker String.eqb Ascii.eqb
      Bool.eqb runHandler]. unfold walkers_g. cbn [randomId].
    rewrite Hsib. cbn [with_groups with_tw tw].
    now destruct (advance _ _ _ _).
Qed.

End MoreShapes.

(** ** Fuel and document order *)

Section Order.

Context {num : Type} {Ext : @Externals num}.

Implicit Types (args : @WalkerArgs num Ext) (walk : @Walk num Ext)
  (e : @ExElement num) (grps : list Group) (el : Element).





Lemma accepted_has_handler (node : Node) :
  nodeValidator node = true ->
  exists h, handlerOf (nodeName node) = Some h /\ h <> Hline.
Proof.
  destruct node as [e cs|s]; [|discriminate]. cbn [nodeValidator nodeName].
  unfold includes, SUPPORTED_TAGS. cbn [existsb].
  intros H. repeat (apply orb_true_iff in H as [H|H]);
    try discriminate;
    apply String.eqb_eq in H; rewrite H; eexists; (split; [reflexivity|]);
    discriminate.
Qed.

Lemma nextNode_accepted (t t' : TreeWalker) :
  nextNode t = Some t' -> nodeValidator (currentNode t') = true.
Proof.
  intros H. rewrite nextNode_frame in H.
  pose proof (nextFollowing_upcoming
                (mkFrame (currentNode t) (children (currentNode t))
                 :: ancestors t)) as Hn.
  rewrite H in Hn. exact (proj1 Hn).
Qed.

(** X15.  Where no [g] and no [use] element is ahead, the scene grows in
    document order: the walk gives what handling the current node and then
    the nodes before the walker, one after the other, gives; it stops at
    the first node whose handler throws. *)
Theorem walk_in_document_order (fuel : nat) :
  forall args (ids : nat),
    handlerOf (nodeName (currentNode (tw args))) <> None ->
    Forall (fun n => nodeName n <> "g" /\ nodeName n <> "use")
      (currentNode (tw args) :: upcoming (tw args)) ->
    (remaining (tw args) + 2 <= fuel)%nat ->
    walk fuel args ids (Some (currentNode (tw args)))
    = handleInOrder (root args) (groups args)
        (currentNode (tw args) :: upcoming (tw args)) (scene args) ids.
Proof.
  induction fuel as [|fuel IH]; intros args ids Hh Hall Hfuel; [lia|].
  assert (Hadv : forall (els : list (@ExElement num)) (i : nat),
             advance (walk fuel) (with_scene (scene args ++ els) args) i
               (nextNode (tw args))
             = handleInOrder (root args) (groups args) (upcoming (tw args))
                 (scene args ++ els) i).
  { intros els i. pose proof (nextNode_upcoming (tw args)) as Hen.
    destruct (nextNode (tw args)) as [t'|] eqn:Hnext; cbn [advance].
    - destruct Hen as [_ Hen]. rewrite Hen.
      apply (IH (with_tw t' (with_scene (scene args ++ els) args)) i).
      + cbn [with_tw tw]. apply nextNode_accepted in Hnext.
        destruct (accepted_has_handler _ Hnext) as (h & -> & _).
        discriminate.
      + cbn [with_tw tw]. rewrite <- Hen.
        now apply Forall_cons in Hall as [_ Hall].
      + cbn [with_tw tw]. apply nextNode_remaining in Hnext. lia.
    - rewrite Hen. destruct fuel; [lia|reflexivity]. }
  assert (Hadv0 : advance (walk fuel) args ids (nextNode (tw args))
                  = handleInOrder (root args) (groups args)
                      (upcoming (tw args)) (scene args) ids).
  { pose proof (Hadv [] ids) as H. rewrite app_nil_r in H.
    replace (with_scene (scene args) args) with args in H
      by now destruct args.
    exact H. }
  apply Forall_cons in Hall as [[Hg Hu] _].
  rewrite walk_node. cbn [handleInOrder]. unfold ownElements.
  destruct (handlerOf (nodeName (currentNode (tw args)))) as [h|] eqn:Hhn;
    [|congruence].
  destruct h; cbn [runHandler].
  - (* svg *) unfold walkers_svg. rewrite app_nil_r. exact Hadv0.
  - (* g *) exfalso. apply Hg. revert Hhn. apply handlerOf_Hg.
  - (* use *) exfalso. apply Hu. revert Hhn. apply handlerOf_Huse.
  - (* circle *) apply Hadv.
  - (* ellipse *) apply Hadv.
  - (* line *) unfold walkers_line. rewrite app_nil_r. exact Hadv0.
  - (* polygon *)
    unfold walkers_polygon. destruct (polygon_line _ _); [apply Hadv|].
    reflexivity.
  - (* polyline *)
    unfold walkers_polyline. destruct (polyline_line _ _); [apply Hadv|].
    reflexivity.
  - (* text *) apply Hadv.
  - (* rect *) apply Hadv.
  - (* path *)
    unfold walkers_path.
    destruct (pathElements _ _ _) as [[els st]|]; [apply Hadv|reflexivity].
Qed.

End Order.

(** ** A [use] element that refers to a [use] element *)






Section UseOfUse.

Context {num : Type} {Ext : @Externals num}.

Implicit Types (args : @WalkerArgs num Ext).



End UseOfUse.

(** ** Which value wins *)

(** X17.  What the merge leaves under a name: the value of the [use]
    element where that value is not ["id"] and the template has no such
    attribute or the name is one of those always passed on; the template's
    own value, or none, in every other case. *)
Theorem merge_precedence (defEl useEl : Element) (name : string) :
  NoDup (map fst (attributes useEl)) ->
  let merged := getDefElWithCorrectAttrs defEl useEl in
  (forall v : string,
      getAttribute useEl name = Some v ->
      v <> "id" ->
      hasAttribute defEl name = false
      \/ includes allwaysPassedUseAttrs name = true ->
      getAttribute merged name = Some v)
  /\ (getAttribute useEl name = None
      \/ getAttribute useEl name = Some "id"
      \/ (hasAttribute defEl name = true
          /\ includes allwaysPassedUseAttrs name = false) ->
      getAttribute merged name = getAttribute defEl name).
Proof.
  intros Hnd merged. unfold merged.
  rewrite (merged_attribute defEl useEl name Hnd). unfold mergedValue.
  split.
  - intros v Hv Hid Hc. rewrite Hv.
    assert (Hs : includes skippedUseAttrs v = false).
    { unfold includes, skippedUseAttrs. cbn [existsb].
      rewrite orb_false_r. apply String.eqb_neq. congruence. }
    rewrite Hs. destruct Hc as [Hc|Hc]; rewrite Hc; [reflexivity|].
    now rewrite orb_true_r.
  - intros [Hn|[Hi|[Hh Ha]]].
    + now rewrite Hn.
    + rewrite Hi. reflexivity.
    + rewrite Hh, Ha. cbn [negb orb].
      destruct (getAttribute useEl name) as [v|]; [|reflexivity].
      now destruct (includes skippedUseAttrs v).
Qed.

Section Styles.

Context {num : Type} {Ext : @Externals num}.

Implicit Types (el : Element) (grps : list Group) (e : @ExElement num).

(** X18.  The stroke, the background, the stroke width and the fill style
    of a rectangle, a circle or an ellipse are those of the filter of the
    element, else of its own presentation attributes, else of its groups,
    else of a new element.  A polygon or polyline never looks at the
    filter. *)
Theorem style_precedence el grps :
  let filter := filterAttrsToElementValues el in
  let own := presAttrsToElementValues el in
  let grp := getGroupAttrs grps in
  let styled (from : list Partial) (dflt e : @ExElement num) :=
    strokeColor e = firstSet p_strokeColor from (strokeColor dflt)
    /\ backgroundColor e
       = firstSet p_backgroundColor from (backgroundColor dflt)
    /\ strokeWidth e = firstSet p_strokeWidth from (strokeWidth dflt)
    /\ fillStyle e = firstSet p_fillStyle from (fillStyle dflt) in
  styled [filter; own; grp] createExRect (rect_element el grps)
  /\ styled [filter; own; grp] createExEllipse (circle_element el grps)
  /\ styled [filter; own; grp] createExEllipse (ellipse_element el grps)
  /\ forall line,
       polygon_line el grps = Ok line \/ polyline_line el grps = Ok line ->
       styled [own; grp] createExLine line.
Proof.
  cbv zeta.
  assert (Hp : forall (dflt : @ExElement num),
             let e := spread (presAttrs el grps) dflt in
             strokeColor e
             = firstSet p_strokeColor
                 [filterAttrsToElementValues el; presAttrsToElementValues el;
                  getGroupAttrs grps] (strokeColor dflt)
             /\ backgroundColor e
                = firstSet p_backgroundColor
                    [filterAttrsToElementValues el;
                     presAttrsToElementValues el; getGroupAttrs grps]
                    (backgroundColor dflt)
             /\ strokeWidth e
                = firstSet p_strokeWidth
                    [filterAttrsToElementValues el;
                     presAttrsToElementValues el; getGroupAttrs grps]
                    (strokeWidth dflt)
             /\ fillStyle e
                = firstSet p_fillStyle
                    [filterAttrsToElementValues el;
                     presAttrsToElementValues el; getGroupAttrs grps]
                    (fillStyle dflt)).
  { intros dflt. unfold presAttrs. cbn.
    destruct (filterAttrsToElementValues el), (presAttrsToElementValues el),
      (getGroupAttrs grps); cbn.
    repeat split;
      repeat match goal with
             | |- context [match ?o with Some _ => _ | None => _ end] =>
                 is_var o; destruct o
             end; reflexivity. }
  split; [exact (Hp createExRect)|].
  split; [exact (Hp createExEllipse)|].
  split; [exact (Hp createExEllipse)|].
  intros line Hline.
  assert (Hl : exists pts x0 y0 w h,
             line
             = set_height h
                 (set_width w
                    (set_y y0
                       (set_x x0
                          (set_points pts
                             (spread (presAttrsToElementValues el)
                                (spread (getGroupAttrs grps)
                                   createExLine))))))).
  { unfold polygon_line, polyline_line in Hline.
    destruct (transformedPointsOf el grps) as [|[x0 y0] rest];
      [destruct Hline; discriminate|].
    destruct (dimensionsFromPoints _) as [w h].
    destruct Hline as [H|H]; inversion H; eauto 6. }
  destruct Hl as (pts & x0 & y0 & w & h & ->). cbn.
  destruct (presAttrsToElementValues el), (getGroupAttrs grps); cbn.
  repeat split;
    repeat match goal with
           | |- context [match ?o with Some _ => _ | None => _ end] =>
               is_var o; destruct o
           end; reflexivity.
Qed.

End Styles.

Section Texts.

Context {num : Type} {Ext : @Externals num}.

Implicit Types (el : Element) (grps : list Group) (e : @ExElement num).

Lemma orTen_truthy (v : num) :
  truthy (nlit 10) = true -> truthy (orTen v) = true.
Proof. intros H. unfold orTen. now destruct (truthy v) eqn:E. Qed.

(** X19.  The font size of a text element is never a falsy number (zero
    becomes 10), and its stroke colour comes from [fill] alone: where no
    [tspan] child has a [fill] of its own, every run has the [fill] of the
    [text] element, or ["#1E1E1E"] where that has none, whatever the stroke
    of the element and of its groups. *)
Theorem text_colour_and_size (doc : document) (node : Node) grps :
  truthy (nlit 10) = true ->
  let el := asElement node in
  Forall (fun e => truthy (fontSize e) = true) (text_elements doc node grps)
  /\ (Forall (fun child =>
                match child with
                | ElementNode childEl _ => has childEl "fill" = false
                | TextNode _ => True
                end) (children node) ->
      Forall (fun e =>
                strokeColor e
                = if has el "fill" then get el "fill" None else "#1E1E1E")
        (text_elements doc node grps)).
Proof.
  intros Hten el. unfold text_elements. fold el.
  generalize (match getAttribute el "class" with
              | Some (String a s0 as className) =>
                  match styleRuleFontSize doc className with
                  | Some v => v
                  | None => nlit 10
                  end
              | _ => nlit 10
              end) as size0.
  intros size0.
  generalize (getNum el "font-size" size0) as size. intros size.
  generalize (children node) as cs. intros cs. split.
  - induction cs as [|c cs IH]; cbn [flat_map]; [constructor|].
    apply Forall_app. split; [|exact IH].
    destruct c as [childEl ccs|data]; cbn [textChild].
    + destruct (String.eqb (tagName childEl) "tspan"); [|constructor].
      repeat constructor. cbn. now apply orTen_truthy.
    + repeat constructor. cbn. now apply orTen_truthy.
  - intros Hcs. induction cs as [|c cs IH]; cbn [flat_map]; [constructor|].
    apply Forall_cons in Hcs as [Hc Hcs].
    apply Forall_app. split; [|exact (IH Hcs)].
    destruct c as [childEl ccs|data]; cbn [textChild].
    + destruct (String.eqb (tagName childEl) "tspan"); [|constructor].
      repeat constructor. cbn. rewrite Hc, orb_false_r. reflexivity.
    + repeat constructor.
Qed.

End Texts.

(** ** The properties above on the sample documents *)

Module MoreExamples.

Import Sample.

Open Scope Z_scope.



(** The first move of the walker in the cluttered document passes the
    title and the line and reaches the first circle. *)
Lemma moves_reach_supported_nodes_witness :
  exists t',
    nextNode (createTreeWalker clutteredDoc) = Some t'
    /\ currentNode t' = circle1
    /\ nodeValidator (currentNode t') = true
    /\ includes SUPPORTED_TAGS (nodeName (currentNode t')) = true
    /\ nodeName (currentNode t') <> "line"
    /\ nodeName (currentNode t') <> "#text".
Proof.
  eexists. split; [reflexivity|]. split; [reflexivity|].
  apply (moves_reach_supported_nodes (createTreeWalker clutteredDoc)).
  left. reflexivity.
Defined.

(** A scene that holds a piece already: the walk over the clean document
    leaves it in front of what it adds, the two circles. *)
Lemma scene_is_only_appended_to_witness :
  let args := mkArgs cleanDoc (createTreeWalker cleanDoc) [] [] in
  let circles :=
    [circle_element (asElement circle1) [];
     circle_element (asElement circle3) []] in
  walk 4 args 0 (Some cleanDoc) = Done circles 0
  /\ walk 4 (with_scene ([squarePiece] ++ scene args) args) 0 (Some cleanDoc)
     = Done ([squarePiece] ++ circles) 0.
Proof.
  intros args circles. split; [reflexivity|].
  destruct (scene_is_only_appended_to (Ext := ext) 4 args 0%nat
              (Some cleanDoc)) as (H & _ & _).
  rewrite H. reflexivity.
Defined.


(** A reference to a circle of radius 2, moved to [x = 5]. *)
Lemma use_of_shape_is_inlined_witness :
  let args := argsAt useOfCircleDoc useOfCircle [] in
  let merged :=
    getDefElWithCorrectAttrs refCircle (asElement (currentNode (tw args))) in
  nodeName useOfCircle = "use"
  /\ querySelector (Externals := ext) useOfCircleDoc "#c" = Some refCircle
  /\ x (circle_element merged []) = 3
  /\ width (circle_element merged []) = 4
  /\ walk 3 args 0 (Some useOfCircle)
     = advance (walk 2)
         (with_scene (scene args ++ [circle_element merged []]) args) 0
         (nextNode (tw args)).
Proof.
  intros args merged.
  split; [reflexivity|]. split; [reflexivity|]. split; [reflexivity|].
  split; [reflexivity|].
  apply (use_of_shape_is_inlined (Ext := ext) 0 args 0%nat useOfCircle "#c"
           refCircle); [reflexivity|reflexivity|reflexivity|].
  left. split; reflexivity.
Defined.


Ltac distinct_names :=
  cbn [map fst attributes];
  repeat (apply NoDup_cons_2;
          [rewrite ?not_elem_of_cons; repeat split;
           try discriminate; apply not_elem_of_nil|]);
  apply NoDup_nil_2.

(** A reference with a place and a fill of its own, merged twice. *)
Lemma merge_is_idempotent_witness :
  let useEl := mkElement "use" [("href", "#p"); ("x", "5"); ("fill", "red")] in
  NoDup (map fst (attributes useEl))
  /\ getDefElWithCorrectAttrs (getDefElWithCorrectAttrs holedPath useEl) useEl
     = getDefElWithCorrectAttrs holedPath useEl.
Proof.
  intros useEl.
  assert (Hnd : NoDup (map fst (attributes useEl))) by distinct_names.
  split; [exact Hnd|].
  exact (merge_is_idempotent holedPath useEl Hnd).
Defined.


(** The hole of the square: its place is its first point, its points are
    relative to it. *)
Lemma path_geometry_witness :
  exists st pointArr rest,
    pathElements holedPath [] 0 = Ok ([squarePiece; holePiece], st)
    /\ pointsOnPath (Externals := ext) squareWithHole !! 1%nat = Some pointArr
    /\ transformPoints pointArr identity = (2, 2) :: rest
    /\ points holePiece = relativeTo 2 2 ((2, 2) :: rest)
    /\ x holePiece = 2 /\ y holePiece = 2
    /\ (width holePiece, height holePiece) = (6, 6).
Proof.
  destruct (path_geometry (Ext := ext) holedPath [] 0%nat
              [squarePiece; holePiece] (mkPathState "clockwise" 1 2)
              eq_refl 1%nat holePiece eq_refl)
    as (pointArr & x0 & y0 & rest & Hp & Ht & Hpts & _ & Hx & Hy & Hd).
  assert (Hp' : pointArr = [(2, 2); (2, 8); (8, 8); (8, 2)])
    by (vm_compute in Hp; congruence).
  subst pointArr. vm_compute in Ht. inversion Ht; subst x0 y0 rest.
  exists (mkPathState "clockwise" 1 2), [(2, 2); (2, 8); (8, 8); (8, 2)],
    [(2, 8); (8, 8); (8, 2)].
  split; [reflexivity|]. split; [reflexivity|]. split; [reflexivity|].
  split; [exact Hpts|]. split; [exact Hx|]. split; [exact Hy|exact Hd].
Defined.

(** A polygon without a [points] attribute. *)
Lemma polygon_error_behaviour_witness :
  let args := argsAt (el "svg" [] [pointlessPolygon]) pointlessPolygon [] in
  nodeName pointlessPolygon = "polygon"
  /\ transformedPointsOf (asElement pointlessPolygon) [] = []
  /\ walk 1 args 0 (Some pointlessPolygon) = Throw typeError [].
Proof.
  intros args. split; [reflexivity|]. split; [reflexivity|].
  destruct (polygon_error_behaviour (Ext := ext) 0 args 0%nat
              pointlessPolygon (or_introl eq_refl)) as [H _].
  exact (H eq_refl).
Defined.


(** The group that ends the inner [svg] element: the rectangle after that
    element is before the walker, and the walk ends without it. *)
Lemma walk_ends_after_last_group_witness :
  let inner :=
    circle_element (asElement circle1) [mkGroup 0 (asElement innerGroup)] in
  nodeName innerGroup = "g"
  /\ firstAccepted (following (mkFrame innerSvg [])) = None
  /\ nodeValidator innerSvg = true
  /\ nextSibling (tw argsAtInnerGroup) = None
  /\ upcoming (tw argsAtInnerGroup) = [circle1; lastRect]
  /\ walk 5 argsAtInnerGroup 0 (Some innerGroup) = Done [inner] 1
  /\ run 7 nestedSvgDoc = Done [inner] 1.
Proof.
  intros inner.
  split; [reflexivity|]. split; [reflexivity|]. split; [reflexivity|].
  destruct (walk_ends_after_last_group (Ext := ext) 3 argsAtInnerGroup 0%nat
              innerGroup (mkFrame innerSvg [])
              (mkFrame nestedSvgDoc [lastRect]) []
              eq_refl eq_refl eq_refl eq_refl) as (Hs & Hu & Hw).
  split; [exact Hs|]. split; [rewrite Hu; reflexivity|].
  split; [rewrite Hw; reflexivity|reflexivity].
Defined.

(** The cluttered document has no group and no reference. *)
Lemma walk_in_document_order_witness :
  let args := mkArgs clutteredDoc (createTreeWalker clutteredDoc) [] [] in
  upcoming (tw args) = [circle1; circle3]
  /\ walk 4 args 0 (Some clutteredDoc)
     = handleInOrder clutteredDoc [] [clutteredDoc; circle1; circle3] [] 0.
Proof.
  intros args. split; [reflexivity|].
  apply (walk_in_document_order (Ext := ext) 4 args 0%nat).
  - discriminate.
  - change (currentNode (tw args) :: upcoming (tw args))
      with [clutteredDoc; circle1; circle3].
    repeat constructor; discriminate.
  - change (remaining (tw args)) with 2%nat. lia.
Defined.


(** The template has a fill and no [x]; the reference has both. *)
Lemma merge_precedence_witness :
  let defEl := mkElement "rect" [("id", "t"); ("fill", "red")] in
  let useEl := mkElement "use" [("href", "#t"); ("fill", "blue"); ("x", "5")] in
  NoDup (map fst (attributes useEl))
  /\ getAttribute (getDefElWithCorrectAttrs defEl useEl) "x" = Some "5"
  /\ getAttribute (getDefElWithCorrectAttrs defEl useEl) "fill" = Some "red".
Proof.
  intros defEl useEl.
  assert (Hnd : NoDup (map fst (attributes useEl))) by distinct_names.
  split; [exact Hnd|]. split.
  - apply (proj1 (merge_precedence defEl useEl "x" Hnd) "5");
      [reflexivity|discriminate|left; reflexivity].
  - apply (proj2 (merge_precedence defEl useEl "fill" Hnd)).
    right. right. split; reflexivity.
Defined.

(** A red polygon in a group that is blue and filled green. *)
Lemma style_precedence_witness :
  exists line,
    polygon_line styledPolygon [styledGroup] = Ok line
    /\ strokeColor line = "red"
    /\ backgroundColor line = "green"
    /\ strokeWidth line = 1.
Proof.
  destruct (style_precedence (Ext := ext) styledPolygon [styledGroup])
    as (_ & _ & _ & H).
  eexists. split; [reflexivity|].
  destruct (H _ (or_introl eq_refl)) as (Hs & Hb & Hw & _).
  split; [exact Hs|]. split; [exact Hb|exact Hw].
Defined.

(** A text with a red stroke and a font size of zero: two runs, both in
    the default colour and of size 10. *)
Lemma text_colour_and_size_witness :
  let runs := text_elements (Ext := ext) strokedText strokedText [] in
  truthy (Externals := ext) 10 = true
  /\ map text runs = ["ab"; "cde"]
  /\ map fontSize runs = [10; 10]
  /\ Forall (fun e => truthy (fontSize e) = true) runs
  /\ Forall (fun e => strokeColor e = "#1E1E1E") runs.
Proof.
  intros runs.
  split; [reflexivity|]. split; [reflexivity|]. split; [reflexivity|].
  destruct (text_colour_and_size (Ext := ext) strokedText strokedText []
              eq_refl) as [Hf Hc].
  split; [exact Hf|].
  apply Hc. repeat constructor.
Defined.

End MoreExamples.
